(** * Citation integrity of the publisher pipeline

    A shallow embedding of the citation sanitizer of [crew/workflow.py] and of
    the claim extractor, similarity scorer and ledger of [ledger.py], with the
    properties the specification states about them.

    Texts.  A Python [str] is modelled as a list of characters over the code
    points 0..255 ([ascii]).  On that range the character classes of [str]
    and [re] are the ones written out below ([isspace], [isdecimal],
    [isword], [islinebreak]).

    Regular expressions.  Every pattern of the two modules is a sequence of
    single characters, character classes, greedy repetitions of a class and
    zero-width assertions.  [rmatch] is a backtracking matcher for that
    fragment and [finditer] is the left-to-right scan that [re.sub],
    [re.findall], [re.search] and [re.split] share. *)

From Stdlib Require Import List Ascii String Bool Arith Lia QArith DecimalString.
From Equations Require Import Equations.
Import ListNotations.

Close Scope Q_scope.
Close Scope Z_scope.
Open Scope nat_scope.
Open Scope bool_scope.
Open Scope list_scope.

(** ** Texts and character classes *)

Definition text := list ascii.

Definition str (s : string) : text := list_ascii_of_string s.

Definition code (c : ascii) : nat := nat_of_ascii c.

Definition between (lo hi : nat) (c : ascii) : bool :=
  (lo <=? code c) && (code c <=? hi).

(** [str.isspace], which is also the class [\s] of [re]:
    TAB..CR, FS..US, SPACE, NEL and NBSP. *)
Definition isspace (c : ascii) : bool :=
  between 9 13 c || between 28 32 c || (code c =? 133) || (code c =? 160).

(** The class [\d] of [re]: the decimal digits. *)
Definition isdecimal (c : ascii) : bool := between 48 57 c.

(** The class [\w] of [re]: [str.isalnum] or an underscore. *)
Definition isword (c : ascii) : bool :=
  between 48 57 c || between 65 90 c || between 97 122 c || (code c =? 95)
  || (code c =? 170) || (code c =? 181) || (code c =? 186)
  || between 178 179 c || (code c =? 185) || between 188 190 c
  || between 192 214 c || between 216 246 c || between 248 255 c.

(** The line boundaries of [str.splitlines]. *)
Definition islinebreak (c : ascii) : bool :=
  between 10 13 c || between 28 30 c || (code c =? 133).

(** The class [.] of [re] (without DOTALL). *)
Definition notnewline (c : ascii) : bool := negb (code c =? 10).

Definition LF : ascii := ascii_of_nat 10.

Definition text_eqb (a b : text) : bool :=
  if list_eq_dec ascii_dec a b then true else false.

(** Truthiness of a Python string. *)
Definition truthy (s : text) : bool :=
  match s with [] => false | _ :: _ => true end.

(** [k in keys] for a list or a set built from it. *)
Definition mem (k : text) (keys : list text) : bool := existsb (text_eqb k) keys.

Fixpoint dropwhile (p : ascii -> bool) (s : text) : text :=
  match s with
  | c :: s' => if p c then dropwhile p s' else s
  | [] => []
  end.

(** The keys of a list in the order of their first occurrence, [seen] being
    the keys met so far: the loop of [_parse_selected_keys] with its set
    [seen], and [list(dict.fromkeys(keys))]. *)
Fixpoint keep_unseen (seen : list text) (keys : list text) : list text :=
  match keys with
  | [] => []
  | k :: ks =>
      if mem k seen then keep_unseen seen ks
      else k :: keep_unseen (k :: seen) ks
  end.

(** The key between brackets, as the f-strings of both modules write it. *)
Definition bracketed (key : text) : text := ("[" :: key ++ ["]"])%char.

(** [needle] is found somewhere inside [hay]. *)
Definition occurs (needle hay : text) : Prop :=
  exists pre post, hay = pre ++ needle ++ post.

Definition lstrip (s : text) : text := dropwhile isspace s.
Definition rstrip (s : text) : text := rev (dropwhile isspace (rev s)).
Definition strip (s : text) : text := rstrip (lstrip s).

(** [sep.join(parts)] *)
Fixpoint join (sep : text) (parts : list text) : text :=
  match parts with
  | [] => []
  | [p] => p
  | p :: ps => p ++ sep ++ join sep ps
  end.

(** [str.splitlines]: [after_cr] remembers that the boundary just closed was
    a carriage return, so that a following line feed belongs to it. *)
Fixpoint splitlines_from (after_cr : bool) (cur : text) (s : text) : list text :=
  match s with
  | [] => match cur with [] => [] | _ => [rev cur] end
  | c :: s' =>
      if after_cr && (code c =? 10) then splitlines_from false cur s'
      else if islinebreak c then rev cur :: splitlines_from (code c =? 13) [] s'
      else splitlines_from false (c :: cur) s'
  end.

Definition splitlines (s : text) : list text := splitlines_from false [] s.

(** ** The regular-expression fragment *)

Inductive atom : Type :=
| Chr (c : ascii)           (* a literal character *)
| Star (p : ascii -> bool)  (* [p*], greedy *)
| Plus (p : ascii -> bool)  (* [p+], greedy *)
| Bol                       (* [^] *)
| WordB.                    (* [\b] *)

Definition regex := list atom.

(** A continuation of the matcher: given the character before the current
    position and the rest of the text, the lengths the remaining atoms
    consume. *)
Definition cont := option ascii -> text -> option (list nat).

Definition is_word_at (o : option ascii) : bool :=
  match o with Some c => isword c | None => false end.

(** Greedy repetition with backtracking: the longest run of [p] after which
    the continuation [k] succeeds. *)
Fixpoint star (p : ascii -> bool) (k : cont) (prev : option ascii) (s : text)
  : option (nat * list nat) :=
  match s with
  | c :: s' =>
      if p c then
        match star p k (Some c) s' with
        | Some (n, ls) => Some (S n, ls)
        | None => option_map (pair 0) (k prev s)
        end
      else option_map (pair 0) (k prev s)
  | [] => option_map (pair 0) (k prev s)
  end.

Definition push (o : option (nat * list nat)) : option (list nat) :=
  match o with Some (n, ls) => Some (n :: ls) | None => None end.

(** [rmatch r prev s]: match [r] at the head of [s], [prev] being the
    character before it ([None] at the start of the text); the result lists
    the number of characters each atom consumed. *)
Fixpoint rmatch (r : regex) (prev : option ascii) (s : text) {struct r}
  : option (list nat) :=
  match r with
  | [] => Some []
  | Chr c :: r' =>
      match s with
      | x :: s' => if Ascii.eqb x c then option_map (cons 1) (rmatch r' (Some x) s')
                   else None
      | [] => None
      end
  | Star p :: r' => push (star p (rmatch r') prev s)
  | Plus p :: r' =>
      match s with
      | x :: s' =>
          if p x then
            match star p (rmatch r') (Some x) s' with
            | Some (n, ls) => Some (S n :: ls)
            | None => None
            end
          else None
      | [] => None
      end
  | Bol :: r' =>
      match prev with
      | None => option_map (cons 0) (rmatch r' prev s)
      | Some _ => None
      end
  | WordB :: r' =>
      if xorb (is_word_at prev) (is_word_at (hd_error s))
      then option_map (cons 0) (rmatch r' prev s)
      else None
  end.

(** A match object: the matched text and the lengths of its atoms. *)
Record Match : Type := mkMatch { whole : text; spans : list nat }.

(** The text matched by atoms [i] (included) to [j] (excluded). *)
Definition span (i j : nat) (m : Match) : text :=
  let start := list_sum (firstn i (spans m)) in
  let len := list_sum (firstn (j - i) (skipn i (spans m))) in
  firstn len (skipn start (whole m)).

Inductive piece : Type :=
| Lit (c : ascii)   (* a character outside every match *)
| Hit (m : Match).  (* a match *)

(** The scan behind [re.sub], [re.findall], [re.search] and [re.split]: try
    the pattern at the current position; after a match go on behind it,
    otherwise move one character on.  No pattern of the program matches the
    empty text; an empty match is passed over like a failure. *)
Equations? finditer (r : regex) (prev : option ascii) (s : text) : list piece
  by wf (List.length s) lt :=
  finditer r prev [] := [];
  finditer r prev (c :: s') with rmatch r prev (c :: s') := {
    | Some lens with list_sum lens := {
        | S n := Hit (mkMatch (c :: firstn n s') lens)
                   :: finditer r (Some (last (firstn n s') c)) (skipn n s');
        | 0 := Lit c :: finditer r (Some c) s' };
    | None := Lit c :: finditer r (Some c) s' }.
Proof.
  all: simpl; try lia.
  rewrite List.length_skipn. lia.
Qed.

Definition piece_text (repl : Match -> text) (p : piece) : text :=
  match p with Lit c => [c] | Hit m => repl m end.

(** [re.sub(r, repl, s)] with a function [repl]. *)
Definition re_sub (r : regex) (repl : Match -> text) (s : text) : text :=
  List.concat (map (piece_text repl) (finditer r None s)).

Fixpoint hits (ps : list piece) : list Match :=
  match ps with
  | [] => []
  | Lit _ :: ps' => hits ps'
  | Hit m :: ps' => m :: hits ps'
  end.

(** All matches of [r] in [s], left to right. *)
Definition re_matches (r : regex) (s : text) : list Match := hits (finditer r None s).

(** [re.search(r, s)] used as a truth value. *)
Definition re_search (r : regex) (s : text) : bool :=
  match re_matches r s with [] => false | _ :: _ => true end.

(** [re.split(r, s)] for a pattern without groups. *)
Fixpoint split_pieces (cur : text) (ps : list piece) : list text :=
  match ps with
  | [] => [rev cur]
  | Lit c :: ps' => split_pieces (c :: cur) ps'
  | Hit _ :: ps' => rev cur :: split_pieces [] ps'
  end.

Definition re_split (r : regex) (s : text) : list text :=
  split_pieces [] (finditer r None s).

(** [r.match(s)]: the pattern anchored at the start of [s]. *)
Definition re_match (r : regex) (s : text) : option Match :=
  match rmatch r None s with
  | Some lens => Some (mkMatch (firstn (list_sum lens) s) lens)
  | None => None
  end.

(** ** crew/workflow.py *)

Module Workflow.

Open Scope char_scope.

(** The pattern [\bS\d+\b]. *)
Definition SELECTED_KEY : regex := [WordB; Chr "S"; Plus isdecimal; WordB].

(** The pattern [\[S(\d+)\]], also written [\[S\d+\]] where the group
    is not used. *)
Definition CITATION : regex := [Chr "["; Chr "S"; Plus isdecimal; Chr "]"].

(** The pattern [\[S#\]]. *)
Definition PLACEHOLDER : regex := [Chr "["; Chr "S"; Chr "#"; Chr "]"].

(** The pattern [\n\s*\n+]. *)
Definition PARAGRAPH_BREAK : regex := [Chr LF; Star isspace; Plus (Ascii.eqb LF)].

Definition _parse_selected_keys (t : text) : list text :=
  if truthy t then keep_unseen [] (map whole (re_matches SELECTED_KEY t))
  else [].

(** The function [repl] of [_sanitize_citations]; [m.group(1)] is the text
    of the third atom of [CITATION]. *)
Definition repl (allowed : list text) (m : Match) : text :=
  let k := "S" :: span 2 3 m in
  if mem k allowed then whole m else [].

Definition _sanitize_citations (t : text) (allowed_keys : list text) : text :=
  if truthy t then re_sub CITATION (repl allowed_keys) t else t.

Definition _ensure_citation_per_paragraph (t : text) (selected_keys : list text)
  : text :=
  match selected_keys with
  | [] => t
  | first :: _ =>
      if truthy t then
        let paras := re_split PARAGRAPH_BREAK (strip t) in
        let fixed :=
          map (fun p => if re_search CITATION p then p
                        else rstrip p ++ " " :: bracketed first) paras in
        join [LF; LF] fixed
      else t
  end.

(** The substitution of the bracketed first key for the placeholder, as
    [re.sub] makes it for a key without backslash.  The replacement is a
    template of [re], in which a backslash opens an escape or a group
    reference; without backslash it stands for itself. *)
Definition replace_placeholder (first : text) (t : text) : text :=
  re_sub PLACEHOLDER (fun _ => bracketed first) t.

(** The part headed Sanitize and Return of [run_generation_with_crew], from the
    stripped reply of the editor, the stripped reply of the adapter and the
    selected keys. *)
Definition sanitize_and_return (final_text adapted_text : text)
  (selected_keys : list text) : text :=
  let final_text := _sanitize_citations final_text selected_keys in
  let adapted_text := _sanitize_citations adapted_text selected_keys in
  let final_text :=
    match selected_keys with
    | first :: _ => replace_placeholder first final_text
    | [] => final_text
    end in
  let adapted_text :=
    match selected_keys with
    | first :: _ => replace_placeholder first adapted_text
    | [] => adapted_text
    end in
  let final_text := _ensure_citation_per_paragraph final_text selected_keys in
  let adapted_text := _ensure_citation_per_paragraph adapted_text selected_keys in
  let final_text :=
    match selected_keys with
    | first :: _ =>
        if negb (re_search CITATION final_text)
        then rstrip final_text ++ " " :: bracketed first
        else final_text
    | [] => final_text
    end in
  if truthy final_text then final_text else adapted_text.

(** A candidate source: the entries of the dict that the pipeline reads. *)
Record Source : Type := mkSource {
  key : option text;
  title : option text;
  url : option text;
  doi : option text
}.

(** The keys of the sources that have one, in the order of the sources. *)
Fixpoint candidate_keys (sources : list Source) : list text :=
  match sources with
  | [] => []
  | s :: rest =>
      match key s with
      | Some k => if truthy k then k :: candidate_keys rest
                  else candidate_keys rest
      | None => candidate_keys rest
      end
  end.

(** Step 1 after the researcher has answered [keys_raw]: the parsed keys,
    or the first two candidates when parsing gave none. *)
Definition select_keys (keys_raw : text) (sources : list Source) : list text :=
  match _parse_selected_keys keys_raw with
  | [] => firstn 2 (candidate_keys sources)
  | selected => selected
  end.

(** What a one-task crew gives back: a text, or an exception. *)
Inductive reply : Type :=
| Said (t : text)
| Raised.

(** [run_generation_with_crew], the three generation steps being the replies
    of the researcher, the adapter and the editor.  Only the exception of the
    adapter is caught; [None] is an exception that reaches the caller. *)
Definition run_generation_with_crew (sources : list Source)
  (researcher adapter editor : reply) : option text :=
  match researcher with
  | Raised => None
  | Said keys_raw =>
      let selected_keys := select_keys keys_raw sources in
      let adapted_text :=
        match adapter with Said t => strip t | Raised => [] end in
      match editor with
      | Raised => None
      | Said t => Some (sanitize_and_return (strip t) adapted_text selected_keys)
      end
  end.

End Workflow.

(** ** ledger.py *)

Module Ledger.

Open Scope char_scope.

(** The pattern [^#\s+(G)] with [G] any run of characters but the line
    feed; the group is the fourth atom. *)
Definition H1 : regex := [Bol; Chr "#"; Plus isspace; Star notnewline].

(** The pattern [^##\s+(G)], likewise; the group is the fifth atom. *)
Definition H2 : regex := [Bol; Chr "#"; Chr "#"; Plus isspace; Star notnewline].

(** The pattern [\[(S\d+)\]]; the group is the second and third atoms. *)
Definition SRC_KEYS : regex := [Chr "["; Chr "S"; Plus isdecimal; Chr "]"].

(** The pattern [\s+]. *)
Definition SPACES : regex := [Plus isspace].

(** The variables of the generator [_iter_paragraphs]. *)
Record pstate : Type := mkPstate {
  h1 : option text;
  h2 : option text;
  buf : list text
}.

(** [[p for p in [h] if p]] *)
Definition present (h : option text) : list text :=
  match h with
  | Some t => if truthy t then [t] else []
  | None => []
  end.

(** What [flush] yields; the caller empties [buf]. *)
Definition flush (st : pstate) : list (text * text) :=
  match buf st with
  | [] => []
  | _ :: _ =>
      let para := strip (join [LF] (buf st)) in
      if truthy para then
        let section_path := join (str " > ") (present (h1 st) ++ present (h2 st)) in
        [(if truthy section_path then section_path else str "ROOT", para)]
      else []
  end.

(** One turn of the loop over the lines: what is yielded, and the variables
    afterwards. *)
Definition step (st : pstate) (ln : text) : list (text * text) * pstate :=
  match re_match H1 ln, re_match H2 ln with
  | Some m1, _ => (flush st, mkPstate (Some (strip (span 3 4 m1))) None [])
  | None, Some m2 => (flush st, mkPstate (h1 st) (Some (strip (span 4 5 m2))) [])
  | None, None =>
      if text_eqb (strip ln) [] then (flush st, mkPstate (h1 st) (h2 st) [])
      else ([], mkPstate (h1 st) (h2 st) (buf st ++ [ln]))
  end.

Fixpoint run_lines (st : pstate) (lines : list text) : list (text * text) :=
  match lines with
  | [] => flush st
  | ln :: rest => fst (step st ln) ++ run_lines (snd (step st ln)) rest
  end.

Definition _iter_paragraphs (md_text : text) : list (text * text) :=
  run_lines (mkPstate None None []) (splitlines md_text).

(** [list(dict.fromkeys(SRC_KEYS.findall(para)))] *)
Definition para_keys (para : text) : list text :=
  keep_unseen [] (map (span 1 3) (re_matches SRC_KEYS para)).

Fixpoint extract_claims_from (paragraphs : list (text * text))
  : list (text * text * list text) :=
  match paragraphs with
  | [] => []
  | (section, para) :: rest =>
      match para_keys para with
      | [] => extract_claims_from rest
      | keys => (section, para, keys) :: extract_claims_from rest
      end
  end.

Definition extract_claims (md_text : text) : list (text * text * list text) :=
  extract_claims_from (_iter_paragraphs md_text).

(** A dict from keys to texts, in insertion order. *)
Definition dict := list (text * text).

Fixpoint dict_get (k : text) (d : dict) : option text :=
  match d with
  | [] => None
  | (k', v) :: d' => if text_eqb k k' then Some v else dict_get k d'
  end.

Fixpoint dict_set (k v : text) (d : dict) : dict :=
  match d with
  | [] => [(k, v)]
  | (k', v') :: d' =>
      if text_eqb k k' then (k, v) :: d' else (k', v') :: dict_set k v d'
  end.

(** An entry of the sources file. *)
Record SourceItem : Type := mkItem {
  key : option text;
  title : option text;
  year : option nat;
  doi : option text;
  url : option text;
  abstract : option text
}.

(** [x or default] *)
Definition or_else (x : option text) (default : text) : text :=
  match x with
  | Some t => if truthy t then t else default
  | None => default
  end.

Definition decimal (n : nat) : text := str (NilEmpty.string_of_uint (Nat.to_uint n)).

Definition apa (it : SourceItem) : text :=
  let title := or_else (title it) (str "Untitled") in
  let head :=
    match year it with
    | Some (S y) => "(" :: decimal (S y) ++ str ") " ++ title ++ str ". "
    | _ => title ++ str ". "
    end in
  match or_else (doi it) [], or_else (url it) [] with
  | (_ :: _) as d, _ => head ++ str "https://doi.org/" ++ d
  | [], (_ :: _) as u => head ++ u
  | [], [] => head
  end.

(** The loop of [load_sources_maps] over the parsed file. *)
Fixpoint load_sources_maps (data : list SourceItem) (maps : dict * dict)
  : dict * dict :=
  match data with
  | [] => maps
  | it :: rest =>
      match or_else (key it) [] with
      | [] => load_sources_maps rest maps
      | k =>
          load_sources_maps rest
            (dict_set k (apa it) (fst maps),
             dict_set k (or_else (abstract it) []) (snd maps))
      end
  end.

Record LedgerRow : Type := mkRow {
  project_id : text;
  section : text;
  claim_text : text;
  source_key : text;
  source_citation : text;
  similarity_score : option Q;
  created_at : nat
}.

(** The table [claim_ledger]; [None] before it is created. *)
Definition database := option (list LedgerRow).

Definition ensure_schema (db : database) : database :=
  match db with
  | None => Some []
  | Some t => Some t
  end.

(** The rows handed to [execute_batch], put behind the rows of the table;
    [None]: the insertion fails, there is no table.  The table of the model
    holds the rows as they are handed over: what PostgreSQL makes of a value
    when it stores it is not modelled. *)
Definition insert_rows (db : database) (rows : list LedgerRow) : option database :=
  match rows with
  | [] => Some db
  | _ :: _ =>
      match db with
      | Some t => Some (Some (t ++ rows))
      | None => None
      end
  end.

Section Scoring.

(** [rapidfuzz.fuzz.token_set_ratio], a number between 0 and 100. *)
Variable token_set_ratio : text -> text -> Q.

Definition _norm (s : text) : text := strip (re_sub SPACES (fun _ => [" "]) s).

Definition similarity (a : text) (b : option text) : option Q :=
  match b with
  | Some (c :: b') =>
      Some (token_set_ratio (_norm a) (_norm (c :: b')) / 100)%Q
  | _ => None
  end.

(** The rows that [log_claims_from_markdown] builds from the claims. *)
Definition rows_of (project : text) (references_map abstracts_map : dict)
  (now : nat) (claims : list (text * text * list text)) : list LedgerRow :=
  flat_map
    (fun claim =>
       match claim with
       | (section, para, keys) =>
           map (fun key =>
                  mkRow project section para key
                        (match dict_get key references_map with
                         | Some c => c
                         | None => []
                         end)
                        (similarity para (dict_get key abstracts_map))
                        now)
               keys
       end)
    claims.

(** [log_claims_from_markdown], from the contents of the two files and the
    time of the call: the rows built, their number and the database
    afterwards. *)
Definition log_claims_from_markdown (db : database) (project : text)
  (md : text) (data : list SourceItem) (now : nat)
  : option (list LedgerRow * nat * database) :=
  let db := ensure_schema db in
  let maps := load_sources_maps data ([], []) in
  let claims := extract_claims md in
  let rows := rows_of project (fst maps) (snd maps) now claims in
  match insert_rows db rows with
  | Some db' => Some (rows, List.length rows, db')
  | None => None
  end.

End Scoring.

End Ledger.

(** ** web/services.py *)

Module Services.

Open Scope char_scope.

(** The pattern [\n\s*\n+], which splits on empty lines. *)
Definition PARA_SPLIT : regex := [Chr LF; Star isspace; Plus (Ascii.eqb LF)].

(** The stripped pieces of the text between empty lines, without the empty
    ones. *)
Definition split_paragraphs (t : text) : list text :=
  filter truthy (map strip (re_split PARA_SPLIT t)).

(** The loop of [chunk_text] over the paragraphs, with its list [chunks]
    and its buffer [buf]. *)
Fixpoint merge_paragraphs (max_chars : Z) (chunks : list text) (buf : text)
  (paras : list text) : list text * text :=
  match paras with
  | [] => (chunks, buf)
  | p :: rest =>
      if negb (truthy buf) then merge_paragraphs max_chars chunks p rest
      else if (Z.of_nat (List.length buf) + 2 + Z.of_nat (List.length p)
               <=? max_chars)%Z
      then merge_paragraphs max_chars chunks (buf ++ [LF; LF] ++ p) rest
      else merge_paragraphs max_chars (chunks ++ [buf]) p rest
  end.

Definition chunk_text (t : text) (max_chars : Z) : list text :=
  let merged := merge_paragraphs max_chars [] [] (split_paragraphs t) in
  if truthy (snd merged) then fst merged ++ [snd merged] else fst merged.

End Services.

(** ** utils/sources.py *)

Module Sources.

Open Scope char_scope.

(** The pattern [\[(S\d+)\]]; the group is the second and third atoms. *)
Definition TAG_PATTERN : regex := [Chr "["; Chr "S"; Plus isdecimal; Chr "]"].

(** The pattern of a linked tag: a tag, an opening parenthesis, one
    character or more other than the closing parenthesis, and the closing
    parenthesis. *)
Definition LINKED_PATTERN : regex :=
  [Chr "["; Chr "S"; Plus isdecimal; Chr "]"; Chr "(";
   Plus (fun c => negb (Ascii.eqb c ")")); Chr ")"].

(** The pattern [\[S\d+\]]. *)
Definition PLAIN_TAG_PATTERN : regex :=
  [Chr "["; Chr "S"; Plus isdecimal; Chr "]"].

(** The function [repl] of [link_sources_in_text]. *)
Definition link_repl (mapping : Ledger.dict) (m : Match) : text :=
  let tag := span 1 3 m in
  match Ledger.dict_get tag mapping with
  | Some u => if truthy u then bracketed tag ++ "(" :: u ++ [")"]
              else bracketed tag
  | None => bracketed tag
  end.

Definition link_sources_in_text (t : text) (mapping : Ledger.dict) : text :=
  match mapping with
  | [] => t
  | _ :: _ => re_sub TAG_PATTERN (link_repl mapping) t
  end.

(** [str.split] without argument: the pieces between runs of whitespace. *)
Fixpoint split_from (cur : text) (s : text) : list text :=
  match s with
  | [] => match cur with [] => [] | _ :: _ => [rev cur] end
  | c :: s' =>
      if isspace c then
        match cur with
        | [] => split_from [] s'
        | _ :: _ => rev cur :: split_from [] s'
        end
      else split_from (c :: cur) s'
  end.

Definition split (s : text) : list text := split_from [] s.

Definition strip_sources_in_text (t : text) : text :=
  let t := re_sub LINKED_PATTERN (fun _ => []) t in
  let t := re_sub PLAIN_TAG_PATTERN (fun _ => []) t in
  join [" "] (split t).

(** The values that [_transform_any] walks through: strings, dicts, lists,
    tuples, and the other objects, which it gives back. *)
#[local] Unset Elimination Schemes.
Inductive value : Type :=
| VStr (s : text)
| VDict (items : list (text * value))
| VList (items : list value)
| VTuple (items : list value)
| VNone
| VInt (n : Z).
#[local] Set Elimination Schemes.

Fixpoint _transform_any (fn : text -> text) (obj : value) : value :=
  match obj with
  | VStr s => VStr (fn s)
  | VDict items =>
      VDict (map (fun kv => match kv with
                            | (k, v) => (k, _transform_any fn v)
                            end) items)
  | VList items => VList (map (_transform_any fn) items)
  | VTuple items => VTuple (map (_transform_any fn) items)
  | other => other
  end.

Definition link_sources (obj : value) (mapping : Ledger.dict) : value :=
  _transform_any (fun s => link_sources_in_text s mapping) obj.

Definition strip_sources (obj : value) : value :=
  _transform_any strip_sources_in_text obj.

End Sources.

(** ** tools.py *)

Module Tools.

Open Scope char_scope.

(** The dataclass [Source]. *)
Record Source : Type := mkSource {
  key : text;
  title : text;
  url : text;
  doi : option text;
  year : option nat;
  oa : bool;
  abstract : option text
}.

Definition inline_cite (key : text) : text := bracketed key.

Definition apa_citation (s : Source) : text :=
  let base := title s ++ ["."] in
  let base :=
    match year s with
    | Some (S y) => "(" :: Ledger.decimal (S y) ++ str ") " ++ base
    | _ => base
    end in
  match doi s with
  | Some (c :: d) => base ++ str " https://doi.org/" ++ c :: d
  | _ => base ++ " " :: url s
  end.

(** The entry of the sources file written from a source ([s.__dict__] in
    web/services.py). *)
Definition to_item (s : Source) : Ledger.SourceItem :=
  Ledger.mkItem (Some (key s)) (Some (title s)) (year s) (doi s)
    (Some (url s)) (abstract s).

End Tools.

(** ** Notions used by the statements *)

(** A line is a heading when a single or a double hash opens it and a
    whitespace character follows. *)
Definition heading_shape (ln : text) : Prop :=
  exists c rest,
    isspace c = true
    /\ (ln = "#"%char :: c :: rest \/ ln = "#"%char :: "#"%char :: c :: rest).

(** The placeholder that the generation leaves for a key it cannot name. *)
Definition placeholder : text := str "[S#]".

(** The keys of the citation tokens of a text, as the scan meets them. *)
Definition cited_keys (t : text) : list text :=
  map (fun m => "S"%char :: span 2 3 m) (re_matches Workflow.CITATION t).

(** The paragraphs of a text, split on blank lines as the enforcement splits
    them. *)
Definition paragraphs (t : text) : list text :=
  re_split Workflow.PARAGRAPH_BREAK (strip t).

(** A well-formed key: the letter S and one digit or more. *)
Definition is_key (k : text) : bool :=
  match k with
  | c :: d :: ds => Ascii.eqb c "S" && forallb isdecimal (d :: ds)
  | _ => false
  end.

(** A catalog of three sources. *)
Definition catalog : list Workflow.Source :=
  [ Workflow.mkSource (Some (str "S1")) (Some (str "Sleep and memory")) None None;
    Workflow.mkSource (Some (str "S2")) (Some (str "Synaptic plasticity")) None None;
    Workflow.mkSource (Some (str "S3")) (Some (str "Attention")) None None ].

(** A ratio that tells equal texts from the others: 100 for a text with a
    token and itself, 0 otherwise. *)
Definition exact_ratio (a b : text) : Q :=
  if text_eqb a b && existsb (fun c => negb (isspace c)) a then 100%Q else 0%Q.

(** The chunks once the loop is over: the list, and the buffer when it is
    not empty. *)
Definition finish (merged : list text * text) : list text :=
  if truthy (snd merged) then fst merged ++ [snd merged] else fst merged.

(** A text is single-spaced when each of its whitespace characters is a
    space that no whitespace character follows. *)
Fixpoint single_spaced (s : text) : bool :=
  match s with
  | [] => true
  | c :: s' =>
      (if isspace c then
         Ascii.eqb c " "
         && match s' with d :: _ => negb (isspace d) | [] => true end
       else true)
      && single_spaced s'
  end.

(** The longest prefix of a text made of characters of a class. *)
Fixpoint takewhile (p : ascii -> bool) (s : text) : text :=
  match s with
  | c :: s' => if p c then c :: takewhile p s' else []
  | [] => []
  end.

Definition nonspace (c : ascii) : bool := negb (isspace c).

(** The text ends with a character that is not whitespace. *)
Definition ends_nonspace (s : text) : Prop :=
  exists a d, s = a ++ [d] /\ isspace d = false.

(** No paragraph break can begin inside the text, whatever follows it:
    behind each of its line feeds, the whitespace that follows holds no line
    feed and ends on a character of the text. *)
Definition quiet (u : text) : Prop :=
  forall a b, u = a ++ LF :: b ->
              ~ In LF (takewhile isspace b) /\ existsb nonspace b = true.

(** The whitespace that opens the text holds no line feed and ends on a
    character of the text. *)
Definition lead (u : text) : Prop :=
  ~ In LF (takewhile isspace u) /\ existsb nonspace u = true.

(** The title that a heading gives to the section path, from what stands
    behind the first whitespace character of the line: the whitespace that
    follows is passed over, the title runs up to a line feed and is
    stripped. *)
Definition heading_title (rest : text) : text :=
  strip (takewhile notnewline (dropwhile isspace rest)).

(** The keys of a catalog, in the order of the catalog: the key of each
    source that has one, the empty keys left out. *)
Definition catalog_keys (sources : list Workflow.Source) : list text :=
  filter truthy
    (flat_map (fun s => match Workflow.key s with Some k => [k] | None => [] end)
       sources).

(** A citation token: the letter S and one digit or more, between
    brackets. *)
Definition token (x : text) : Prop :=
  exists ds, ds <> [] /\ forallb isdecimal ds = true
             /\ x = bracketed ("S"%char :: ds).

(** No citation token stands in the text. *)
Definition token_free (g : text) : Prop :=
  forall x, token x -> ~ occurs x g.

(** [filtered allowed t u]: the text [u] is the text [t] without its
    citation tokens whose key is not allowed.  The tokens are taken from left
    to right; a token with an allowed key and all that stands between the
    tokens is kept as it is. *)
Inductive filtered (allowed : list text) : text -> text -> Prop :=
| filtered_rest (g : text) :
    token_free g -> filtered allowed g g
| filtered_token (g ds rest rest' : text) :
    token_free g -> ds <> [] -> forallb isdecimal ds = true ->
    filtered allowed rest rest' ->
    filtered allowed
      (g ++ bracketed ("S"%char :: ds) ++ rest)
      (g ++ (if mem ("S"%char :: ds) allowed
             then bracketed ("S"%char :: ds) else [])
         ++ rest').

(** The key holds no bracket. *)
Definition bracket_free (k : text) : Prop :=
  ~ In "["%char k /\ ~ In "]"%char k.

(** The section, the claim text and the source key of a row. *)
Definition row_claim (r : Ledger.LedgerRow) : text * text * text :=
  (Ledger.section r, Ledger.claim_text r, Ledger.source_key r).

(** A claim with each of its keys, in the order of the keys. *)
Definition claim_pairs (claim : text * text * list text)
  : list (text * text * text) :=
  map (fun k => (fst (fst claim), snd (fst claim), k)) (snd claim).

(** * Properties *)

(** ** The scan *)

Lemma finditer_miss (r : regex) (prev : option ascii) (c : ascii) (s' : text) :
  rmatch r prev (c :: s') = None ->
  finditer r prev (c :: s') = Lit c :: finditer r (Some c) s'.
Proof.
  intros H. rewrite finditer_equation_2, H. reflexivity.
Qed.

Lemma finditer_hit (r : regex) (prev : option ascii) (c : ascii) (s' : text)
  (lens : list nat) (n : nat) :
  rmatch r prev (c :: s') = Some lens ->
  list_sum lens = S n ->
  finditer r prev (c :: s') =
  Hit (mkMatch (c :: firstn n s') lens)
    :: finditer r (Some (last (firstn n s') c)) (skipn n s').
Proof.
  intros H Hn. rewrite finditer_equation_2, H. simpl. rewrite Hn. reflexivity.
Qed.

(** A substitution changes nothing in a text where the pattern is not found. *)
Lemma sub_without_hit (f : Match -> text) (r : regex) (prev : option ascii)
  (s : text) :
  hits (finditer r prev s) = [] ->
  List.concat (map (piece_text f) (finditer r prev s)) = s.
Proof.
  apply (finditer_elim
           (fun r prev s res =>
              hits res = [] -> List.concat (map (piece_text f) res) = s)).
  - reflexivity.
  - intros r0 p c s' IH _ Hh. simpl in *. now rewrite IH.
  - intros r0 p c s' lens IH _ _ Hh. simpl in *. now rewrite IH.
  - intros r0 p c s' lens n _ _ _ Hh. discriminate Hh.
Qed.

(** Every match of the scan is a match of the pattern at some place of the
    text. *)
Lemma hit_occurs (m : Match) (r : regex) (prev : option ascii) (s : text) :
  In m (hits (finditer r prev s)) ->
  exists pre rest prev',
    s = pre ++ rest /\ rmatch r prev' rest = Some (spans m)
    /\ whole m = firstn (list_sum (spans m)) rest.
Proof.
  apply (finditer_elim
           (fun r prev s res =>
              In m (hits res) ->
              exists pre rest prev',
                s = pre ++ rest /\ rmatch r prev' rest = Some (spans m)
                /\ whole m = firstn (list_sum (spans m)) rest)).
  - intros _ _ [].
  - intros r0 p c s' IH _ Hin. simpl in Hin.
    destruct (IH Hin) as (pre & rest & q & -> & Hm & Hw).
    exists (c :: pre), rest, q. auto.
  - intros r0 p c s' lens IH _ _ Hin. simpl in Hin.
    destruct (IH Hin) as (pre & rest & q & -> & Hm & Hw).
    exists (c :: pre), rest, q. auto.
  - intros r0 p c s' lens n IH Hn Hr Hin. simpl in Hin.
    destruct Hin as [<- | Hin].
    + exists [], (c :: s'), p. simpl. rewrite Hn. auto.
    + destruct (IH Hin) as (pre & rest & q & Hs & Hm & Hw).
      exists (c :: firstn n s' ++ pre), rest, q. repeat split; auto.
      simpl. rewrite <- app_assoc, <- Hs, firstn_skipn. reflexivity.
Qed.

(** What a successful greedy repetition has consumed. *)
Lemma star_sound (p : ascii -> bool) (k : cont) (s : text) :
  forall prev n ls,
    star p k prev s = Some (n, ls) ->
    exists prev',
      forallb p (firstn n s) = true /\ n <= List.length s
      /\ k prev' (skipn n s) = Some ls.
Proof.
  induction s as [|c s IH]; intros prev n ls H; simpl in H.
  - destruct (k prev []) eqn:Hk; inversion H; subst. exists prev. auto.
  - destruct (p c) eqn:Hp.
    + destruct (star p k (Some c) s) as [[n' ls']|] eqn:Hs.
      * inversion H; subst. destruct (IH _ _ _ Hs) as (q & Ha & Hl & Hk).
        exists q. simpl. rewrite Hp. repeat split; auto. lia.
      * destruct (k prev (c :: s)) eqn:Hk; inversion H; subst.
        exists prev. simpl. repeat split; auto. lia.
    + destruct (k prev (c :: s)) eqn:Hk; inversion H; subst.
      exists prev. simpl. repeat split; auto. lia.
Qed.

(** The shape of a citation token: [S] and digits between brackets. *)
Lemma citation_shape (prev : option ascii) (s : text) (lens : list nat) :
  rmatch Workflow.CITATION prev s = Some lens ->
  exists ds rest,
    ds <> [] /\ forallb isdecimal ds = true
    /\ s = "["%char :: "S"%char :: ds ++ "]"%char :: rest
    /\ lens = [1; 1; List.length ds; 1].
Proof.
  unfold Workflow.CITATION. simpl.
  destruct s as [|x s]; [discriminate|].
  destruct (Ascii.eqb x "[") eqn:Hx; [|discriminate].
  apply Ascii.eqb_eq in Hx. subst x.
  destruct s as [|y s]; [discriminate|].
  destruct (Ascii.eqb y "S") eqn:Hy; [|discriminate].
  apply Ascii.eqb_eq in Hy. subst y.
  destruct s as [|d s]; [discriminate|].
  destruct (isdecimal d) eqn:Hd; [|discriminate].
  destruct (star _ _ _ s) as [[n ls]|] eqn:Hs; [|discriminate].
  destruct (star_sound _ _ _ _ _ _ Hs) as (q & Ha & Hl & Hk).
  destruct (skipn n s) as [|z rest] eqn:Hrest; [discriminate|].
  destruct (Ascii.eqb z "]") eqn:Hz; [|discriminate].
  apply Ascii.eqb_eq in Hz. subst z. simpl in Hk.
  intros H. inversion Hk; subst ls. inversion H; subst lens.
  exists (d :: firstn n s), rest. repeat split.
  - discriminate.
  - simpl. now rewrite Hd.
  - simpl. rewrite <- Hrest, firstn_skipn. reflexivity.
  - simpl. rewrite List.length_firstn, Nat.min_l by exact Hl. reflexivity.
Qed.

(** A match of the citation pattern found by the scan is a token [S] and
    digits between brackets that stands in the text. *)
Lemma citation_hit (m : Match) (prev : option ascii) (s : text) :
  In m (hits (finditer Workflow.CITATION prev s)) ->
  exists ds,
    ds <> [] /\ forallb isdecimal ds = true
    /\ whole m = bracketed ("S"%char :: ds)
    /\ spans m = [1; 1; List.length ds; 1]
    /\ occurs (whole m) s.
Proof.
  intros Hin.
  destruct (hit_occurs _ _ _ _ Hin) as (pre & rest & q & Hs & Hm & Hw).
  destruct (citation_shape _ _ _ Hm) as (ds & rest' & Hne & Hds & Hrest & Hl).
  assert (Hwhole : whole m = bracketed ("S"%char :: ds)).
  { rewrite Hw, Hl, Hrest. simpl. unfold bracketed. do 2 f_equal.
    rewrite firstn_app_2. reflexivity. }
  exists ds. repeat split; auto.
  exists pre, rest'. rewrite Hs, Hrest, Hwhole. unfold bracketed. simpl.
  now rewrite <- app_assoc.
Qed.

Lemma span_digits (m : Match) (ds : text) :
  whole m = bracketed ("S"%char :: ds) ->
  spans m = [1; 1; List.length ds; 1] ->
  span 2 3 m = ds /\ span 1 3 m = "S"%char :: ds.
Proof.
  intros Hw Hl. unfold span. rewrite Hw, Hl. unfold bracketed. simpl.
  rewrite !firstn_app_2. simpl. rewrite !app_nil_r. auto.
Qed.

Lemma keep_unseen_In (k : text) (keys : list text) :
  forall seen, In k (keep_unseen seen keys) -> In k keys.
Proof.
  induction keys as [|x keys IH]; intros seen H; simpl in *; [easy|].
  destruct (mem x seen).
  - right. eauto.
  - destruct H as [H | H]; [now left | right; eauto].
Qed.

(** ** The ledger *)

Lemma para_key_occurs (para k : text) :
  In k (Ledger.para_keys para) -> occurs (bracketed k) para.
Proof.
  unfold Ledger.para_keys, re_matches. intros H.
  apply keep_unseen_In, in_map_iff in H. destruct H as (m & Hk & Hin).
  destruct (citation_hit _ _ _ Hin) as (ds & _ & _ & Hw & Hl & Hocc).
  destruct (span_digits _ _ Hw Hl) as [_ H13].
  rewrite <- Hk, H13, <- Hw. exact Hocc.
Qed.

Lemma extract_claims_from_keys (paragraphs : list (text * text))
  (section para : text) (keys : list text) :
  In (section, para, keys) (Ledger.extract_claims_from paragraphs) ->
  keys = Ledger.para_keys para.
Proof.
  induction paragraphs as [|[sec p] rest IH]; simpl; [easy|].
  destruct (Ledger.para_keys p) eqn:Hk; [exact IH|].
  intros [H | H]; [|exact (IH H)].
  inversion H; subst. now rewrite Hk.
Qed.

(** C9.  Whatever the document, the sources and the state of the database,
    [log_claims_from_markdown] completes with the rows it built and their
    number, and in every one of these rows the source key stands between
    brackets inside the claim text. *)
Theorem C9_source_key_bracketed_in_claim_text
  (token_set_ratio : text -> text -> Q) (db : Ledger.database)
  (project md : text) (data : list Ledger.SourceItem) (now : nat) :
  exists rows db',
    Ledger.log_claims_from_markdown token_set_ratio db project md data now
    = Some (rows, List.length rows, db')
    /\ forall row, In row rows ->
         occurs (bracketed (Ledger.source_key row)) (Ledger.claim_text row).
Proof.
  unfold Ledger.log_claims_from_markdown.
  set (maps := Ledger.load_sources_maps data ([], [])).
  set (rows := Ledger.rows_of token_set_ratio project (fst maps) (snd maps) now
                 (Ledger.extract_claims md)).
  assert (Hrows : forall row, In row rows ->
            occurs (bracketed (Ledger.source_key row)) (Ledger.claim_text row)).
  { intros row Hin. unfold rows, Ledger.rows_of in Hin.
    apply in_flat_map in Hin. destruct Hin as ([[sec para] keys] & Hc & Hin).
    apply in_map_iff in Hin. destruct Hin as (k & <- & Hk). simpl.
    apply extract_claims_from_keys in Hc. subst keys.
    now apply para_key_occurs. }
  destruct rows as [|r0 rows'] eqn:Hr.
  - exists [], (Ledger.ensure_schema db). split; [reflexivity | easy].
  - destruct db as [t|]; simpl.
    + exists (r0 :: rows'), (Some (t ++ r0 :: rows')). split; [reflexivity | exact Hrows].
    + exists (r0 :: rows'), (Some (r0 :: rows')). split; [reflexivity | exact Hrows].
Qed.

Lemma C9_witness :
  occurs (bracketed (str "S1")) (str "Neurons fire. [S1]").
Proof.
  destruct (C9_source_key_bracketed_in_claim_text exact_ratio None
              (str "demo") (str "# Intro
Neurons fire. [S1]")
              [Ledger.mkItem (Some (str "S1")) (Some (str "Firing")) (Some 2020)
                 None None (Some (str "Neurons fire."))] 0)
    as (rows & db' & Hlog & Hrows).
  vm_compute in Hlog. injection Hlog as Hr _ _.
  subst rows. exact (Hrows _ (or_introl eq_refl)).
Defined.

(** ** Headings *)

Lemma star_total (p : ascii -> bool) (k : cont) :
  (forall prev s, k prev s <> None) ->
  forall s prev, star p k prev s <> None.
Proof.
  intros Hk s. induction s as [|c s IH]; intros prev; simpl.
  - specialize (Hk prev []). now destruct (k prev []).
  - specialize (Hk prev (c :: s)). specialize (IH (Some c)).
    destruct (p c); [destruct (star p k (Some c) s) as [[n ls]|]; [easy|] |];
      now destruct (k prev (c :: s)).
Qed.

Lemma rest_of_line_total (prev : option ascii) (s : text) :
  rmatch [Star notnewline] prev s <> None.
Proof.
  change (push (star notnewline (rmatch []) prev s) <> None).
  assert (H : star notnewline (rmatch []) prev s <> None)
    by (apply star_total; discriminate).
  destruct (star notnewline (rmatch []) prev s) as [[n ls]|]; simpl; congruence.
Qed.

Lemma hash_space_total (c : ascii) (s : text) :
  star isspace (rmatch [Star notnewline]) (Some c) s <> None.
Proof. apply star_total. exact rest_of_line_total. Qed.

Lemma H1_matches (ln : text) :
  re_match Ledger.H1 ln <> None <->
  exists c rest, isspace c = true /\ ln = "#"%char :: c :: rest.
Proof.
  unfold re_match, Ledger.H1. simpl. split.
  - destruct ln as [|x [|c rest]]; try easy.
    + now destruct (Ascii.eqb x "#").
    + destruct (Ascii.eqb x "#") eqn:Hx; [|easy].
      apply Ascii.eqb_eq in Hx. subst x.
      destruct (isspace c) eqn:Hc; [|easy]. intros _. now exists c, rest.
  - intros (c & rest & Hc & ->). simpl. rewrite Hc.
    pose proof (hash_space_total c rest) as H. simpl in H.
    destruct (star isspace _ (Some c) rest) as [[n ls]|]; simpl; congruence.
Qed.

Lemma H2_matches (ln : text) :
  re_match Ledger.H2 ln <> None <->
  exists c rest, isspace c = true /\ ln = "#"%char :: "#"%char :: c :: rest.
Proof.
  unfold re_match, Ledger.H2. simpl. split.
  - destruct ln as [|x [|y [|c rest]]]; try easy.
    + now destruct (Ascii.eqb x "#").
    + destruct (Ascii.eqb x "#"); [|easy]. now destruct (Ascii.eqb y "#").
    + destruct (Ascii.eqb x "#") eqn:Hx; [|easy].
      apply Ascii.eqb_eq in Hx. subst x.
      destruct (Ascii.eqb y "#") eqn:Hy; [|easy].
      apply Ascii.eqb_eq in Hy. subst y.
      destruct (isspace c) eqn:Hc; [|easy]. intros _. now exists c, rest.
  - intros (c & rest & Hc & ->). simpl. rewrite Hc.
    pose proof (hash_space_total c rest) as H. simpl in H.
    destruct (star isspace _ (Some c) rest) as [[n ls]|]; simpl; congruence.
Qed.

(** ** Stripping *)

Lemma dropwhile_app_stop (p : ascii -> bool) (c : ascii) (l l' : text) :
  p c = false -> dropwhile p (l ++ c :: l') = dropwhile p l ++ c :: l'.
Proof.
  intros Hc. induction l as [|a l IH]; simpl.
  - now rewrite Hc.
  - destruct (p a); [exact IH | reflexivity].
Qed.

Lemma rstrip_cons (c : ascii) (s : text) :
  isspace c = false -> rstrip (c :: s) = c :: rstrip s.
Proof.
  intros Hc. unfold rstrip. simpl.
  rewrite dropwhile_app_stop by exact Hc. rewrite rev_app_distr. reflexivity.
Qed.

Lemma strip_cons (c : ascii) (s : text) :
  isspace c = false -> strip (c :: s) = c :: rstrip s.
Proof.
  intros Hc. unfold strip, lstrip. simpl. rewrite Hc. now apply rstrip_cons.
Qed.

Lemma not_heading_no_match (ln : text) :
  ~ heading_shape ln ->
  re_match Ledger.H1 ln = None /\ re_match Ledger.H2 ln = None.
Proof.
  intros Hn. split.
  - destruct (re_match Ledger.H1 ln) eqn:H; [|reflexivity]. exfalso. apply Hn.
    assert (Hm : re_match Ledger.H1 ln <> None) by now rewrite H.
    apply H1_matches in Hm. destruct Hm as (c & rest & Hc & ->).
    exists c, rest. auto.
  - destruct (re_match Ledger.H2 ln) eqn:H; [|reflexivity]. exfalso. apply Hn.
    assert (Hm : re_match Ledger.H2 ln <> None) by now rewrite H.
    apply H2_matches in Hm. destruct Hm as (c & rest & Hc & ->).
    exists c, rest. auto.
Qed.

(** ** The titles of the headings *)

Lemma firstn_takewhile (p : ascii -> bool) (s : text) :
  firstn (List.length (takewhile p s)) s = takewhile p s.
Proof.
  induction s as [|c s IH]; simpl; [reflexivity|].
  destruct (p c); simpl; [now rewrite IH | reflexivity].
Qed.

Lemma skipn_takewhile (p : ascii -> bool) (s : text) :
  skipn (List.length (takewhile p s)) s = dropwhile p s.
Proof.
  induction s as [|c s IH]; simpl; [reflexivity|].
  destruct (p c); simpl; [exact IH | reflexivity].
Qed.

(** A greedy repetition takes the whole run of its class when what follows
    it in the pattern succeeds on every text. *)
Lemma star_takes_run (p : ascii -> bool) (k : cont) (f : text -> list nat) :
  (forall prev s, k prev s = Some (f s)) ->
  forall s prev,
    star p k prev s = Some (List.length (takewhile p s), f (dropwhile p s)).
Proof.
  intros Hk s. induction s as [|c s IH]; intros prev; simpl.
  - now rewrite Hk.
  - destruct (p c); [now rewrite IH | now rewrite Hk].
Qed.

Lemma rest_of_line (prev : option ascii) (s : text) :
  rmatch [Star notnewline] prev s = Some [List.length (takewhile notnewline s)].
Proof.
  change (push (star notnewline (rmatch []) prev s)
          = Some [List.length (takewhile notnewline s)]).
  now rewrite (star_takes_run notnewline (rmatch []) (fun _ => [])).
Qed.

Lemma hash_space_run (prev : option ascii) (s : text) :
  star isspace (rmatch [Star notnewline]) prev s
  = Some (List.length (takewhile isspace s),
          [List.length (takewhile notnewline (dropwhile isspace s))]).
Proof.
  apply (star_takes_run isspace (rmatch [Star notnewline])
           (fun s => [List.length (takewhile notnewline s)])).
  exact rest_of_line.
Qed.

(** The group of a heading: the text between the whitespace behind the
    hashes and the first line feed. *)
Lemma heading_group (hashes : text) (c : ascii) (rest : text) (n m : nat) :
  n = List.length (takewhile isspace rest) ->
  m = List.length (takewhile notnewline (dropwhile isspace rest)) ->
  firstn m (skipn (List.length hashes + S n)
              (firstn (List.length hashes + S n + m) (hashes ++ c :: rest)))
  = takewhile notnewline (dropwhile isspace rest).
Proof.
  intros -> ->.
  set (n := List.length (takewhile isspace rest)).
  set (m := List.length (takewhile notnewline (dropwhile isspace rest))).
  rewrite <- firstn_skipn_comm.
  rewrite firstn_firstn, Nat.min_id.
  rewrite skipn_app, skipn_all2 by lia.
  replace (List.length hashes + S n - List.length hashes) with (S n) by lia.
  simpl. unfold n, m. rewrite skipn_takewhile. apply firstn_takewhile.
Qed.

Lemma H1_group (c : ascii) (rest : text) :
  isspace c = true ->
  exists m, re_match Ledger.H1 ("#"%char :: c :: rest) = Some m
            /\ span 3 4 m = takewhile notnewline (dropwhile isspace rest).
Proof.
  intros Hc. unfold re_match, Ledger.H1.
  cbn [rmatch]. rewrite Ascii.eqb_refl, Hc, hash_space_run.
  eexists. split; [reflexivity|].
  unfold span. cbn [spans whole firstn skipn list_sum fold_right Nat.sub].
  rewrite !Nat.add_0_r.
  apply (heading_group ["#"%char] c rest); reflexivity.
Qed.

Lemma H2_group (c : ascii) (rest : text) :
  isspace c = true ->
  exists m, re_match Ledger.H2 ("#"%char :: "#"%char :: c :: rest) = Some m
            /\ span 4 5 m = takewhile notnewline (dropwhile isspace rest).
Proof.
  intros Hc. unfold re_match, Ledger.H2.
  cbn [rmatch]. rewrite !Ascii.eqb_refl, Hc, hash_space_run.
  eexists. split; [reflexivity|].
  unfold span. cbn [spans whole firstn skipn list_sum fold_right Nat.sub].
  rewrite !Nat.add_0_r.
  apply (heading_group ["#"%char; "#"%char] c rest); reflexivity.
Qed.

Lemma H1_not_double_hash (rest : text) :
  re_match Ledger.H1 ("#"%char :: "#"%char :: rest) = None.
Proof. reflexivity. Qed.

Lemma step_H1 (st : Ledger.pstate) (c : ascii) (rest : text) :
  isspace c = true ->
  Ledger.step st ("#"%char :: c :: rest)
  = (Ledger.flush st, Ledger.mkPstate (Some (heading_title rest)) None []).
Proof.
  intros Hc. destruct (H1_group c rest Hc) as (m & Hm & Hg).
  unfold Ledger.step. rewrite Hm, Hg. reflexivity.
Qed.

Lemma step_H2 (st : Ledger.pstate) (c : ascii) (rest : text) :
  isspace c = true ->
  Ledger.step st ("#"%char :: "#"%char :: c :: rest)
  = (Ledger.flush st,
     Ledger.mkPstate (Ledger.h1 st) (Some (heading_title rest)) []).
Proof.
  intros Hc. destruct (H2_group c rest Hc) as (m & Hm & Hg).
  unfold Ledger.step. rewrite H1_not_double_hash, Hm, Hg. reflexivity.
Qed.

(** C10.  The lines that the extractor takes for headings are those opened
    by one or two hashes and a whitespace character.  Such a line yields the
    paragraph in the buffer and empties the buffer; after one hash it sets
    the first title of the section path to the title of the line and drops
    the second, after two hashes it sets the second title and keeps the
    first.  No other line changes the section path.  A line opened by a hash
    that has not this shape, as one opened by three hashes or by a hash and a
    character that is neither a hash nor whitespace, yields nothing, leaves
    the section path alone and is added to the paragraph buffer. *)
Theorem C10_only_hash_space_lines_are_headings :
  (forall ln,
      (re_match Ledger.H1 ln <> None \/ re_match Ledger.H2 ln <> None)
      <-> heading_shape ln)
  /\ (forall st ln, heading_shape ln ->
        fst (Ledger.step st ln) = Ledger.flush st
        /\ Ledger.buf (snd (Ledger.step st ln)) = [])
  /\ (forall st c rest, isspace c = true ->
        Ledger.step st ("#"%char :: c :: rest)
        = (Ledger.flush st,
           Ledger.mkPstate (Some (heading_title rest)) None []))
  /\ (forall st c rest, isspace c = true ->
        Ledger.step st ("#"%char :: "#"%char :: c :: rest)
        = (Ledger.flush st,
           Ledger.mkPstate (Ledger.h1 st) (Some (heading_title rest)) []))
  /\ (forall st ln, ~ heading_shape ln ->
        Ledger.h1 (snd (Ledger.step st ln)) = Ledger.h1 st
        /\ Ledger.h2 (snd (Ledger.step st ln)) = Ledger.h2 st)
  /\ (forall st rest, ~ heading_shape ("#"%char :: rest) ->
        Ledger.step st ("#"%char :: rest)
        = ([], Ledger.mkPstate (Ledger.h1 st) (Ledger.h2 st)
                 (Ledger.buf st ++ ["#"%char :: rest])))
  /\ (forall rest, ~ heading_shape ("#"%char :: "#"%char :: "#"%char :: rest))
  /\ (forall c rest, isspace c = false -> c <> "#"%char ->
        ~ heading_shape ("#"%char :: c :: rest))
  /\ Ledger._iter_paragraphs (str "# Intro
## Sub
Neurons fire. [S1]
### Deep
#more

##  Next
Axons grow. [S2]
# Last
The end.")
     = [(str "Intro > Sub", str "Neurons fire. [S1]
### Deep
#more");
        (str "Intro > Next", str "Axons grow. [S2]");
        (str "Last", str "The end.")].
Proof.
  assert (Hshape : forall ln,
             (re_match Ledger.H1 ln <> None \/ re_match Ledger.H2 ln <> None)
             <-> heading_shape ln).
  { intros ln. split.
    + intros [H | H].
      * apply H1_matches in H. destruct H as (c & rest & Hc & ->).
        exists c, rest. auto.
      * apply H2_matches in H. destruct H as (c & rest & Hc & ->).
        exists c, rest. auto.
    + intros (c & rest & Hc & [-> | ->]).
      * left. apply H1_matches. now exists c, rest.
      * right. apply H2_matches. now exists c, rest. }
  split; [exact Hshape|].
  split; [|split; [|split; [|split; [|split; [|split; [|split]]]]]].
  - intros st ln Hh. apply Hshape in Hh. unfold Ledger.step.
    destruct (re_match Ledger.H1 ln); [easy|].
    destruct (re_match Ledger.H2 ln); [easy|].
    now destruct Hh.
  - exact step_H1.
  - exact step_H2.
  - intros st ln Hn. unfold Ledger.step.
    destruct (not_heading_no_match _ Hn) as [-> ->].
    now destruct (text_eqb (strip ln) []).
  - intros st rest Hn. unfold Ledger.step.
    destruct (not_heading_no_match _ Hn) as [-> ->].
    rewrite strip_cons by reflexivity. reflexivity.
  - intros rest (c & rest' & Hc & [H | H]); inversion H; subst; discriminate.
  - intros c rest Hc Hne (c' & rest' & Hc' & [H | H]); inversion H; subst.
    + congruence.
    + now apply Hne.
  - vm_compute. reflexivity.
Qed.

Lemma C10_witness :
  Ledger.step (Ledger.mkPstate (Some (str "Intro")) None [str "Neurons fire."])
    (str "### Deep")
  = ([], Ledger.mkPstate (Some (str "Intro")) None
           [str "Neurons fire."; str "### Deep"])
  /\ Ledger.step
       (Ledger.mkPstate (Some (str "Intro")) (Some (str "Sub")) [])
       (str "# Methods ")
     = ([], Ledger.mkPstate (Some (str "Methods")) None [])
  /\ Ledger.step
       (Ledger.mkPstate (Some (str "Intro")) (Some (str "Sub")) [])
       (str "##  Results")
     = ([], Ledger.mkPstate (Some (str "Intro")) (Some (str "Results")) []).
Proof.
  split; [|split].
  - apply (proj1 (proj2 (proj2 (proj2 (proj2 (proj2
             C10_only_hash_space_lines_are_headings)))))).
    apply (proj1 (proj2 (proj2 (proj2 (proj2 (proj2 (proj2
             C10_only_hash_space_lines_are_headings))))))).
  - exact (proj1 (proj2 (proj2 C10_only_hash_space_lines_are_headings))
             (Ledger.mkPstate (Some (str "Intro")) (Some (str "Sub")) [])
             " "%char (str "Methods ") eq_refl).
  - exact (proj1 (proj2 (proj2 (proj2 C10_only_hash_space_lines_are_headings)))
             (Ledger.mkPstate (Some (str "Intro")) (Some (str "Sub")) [])
             " "%char (str " Results") eq_refl).
Defined.

(** ** The sanitizer *)

(** The scan depends on the character before the text only through the
    first attempt. *)
Lemma finditer_prev (r : regex) (p q : option ascii) (s : text) :
  (forall s', rmatch r p s' = rmatch r q s') ->
  finditer r p s = finditer r q s.
Proof.
  intros H. destruct s as [|c s]; [now rewrite !finditer_equation_1|].
  now rewrite !finditer_equation_2, H.
Qed.

Lemma placeholder_shape (prev : option ascii) (s : text) (lens : list nat) :
  rmatch Workflow.PLACEHOLDER prev s = Some lens <->
  lens = [1; 1; 1; 1] /\ exists rest, s = placeholder ++ rest.
Proof.
  split.
  - unfold Workflow.PLACEHOLDER. simpl.
    destruct s as [|c1 [|c2 [|c3 [|c4 rest]]]];
      repeat match goal with
        | |- context [Ascii.eqb ?x ?y] =>
            let E := fresh in
            destruct (Ascii.eqb x y) eqn:E;
            [apply Ascii.eqb_eq in E; subst x | try discriminate]
        end; try discriminate.
    intros H. inversion H. split; [reflexivity | now exists rest].
  - intros [-> [rest ->]]. reflexivity.
Qed.

Lemma placeholder_prev (p q : option ascii) (s : text) :
  rmatch Workflow.PLACEHOLDER p s = rmatch Workflow.PLACEHOLDER q s.
Proof. reflexivity. Qed.

Lemma finditer_placeholder_here (prev : option ascii) (s : text) :
  finditer Workflow.PLACEHOLDER prev (placeholder ++ s)
  = Hit (mkMatch placeholder [1; 1; 1; 1])
      :: finditer Workflow.PLACEHOLDER (Some "]"%char) s.
Proof.
  unfold placeholder. simpl.
  now rewrite (@finditer_hit _ _ _ _ [1; 1; 1; 1] 3).
Qed.

(** A placeholder in the text is found by the scan, whatever stands before
    and behind it. *)
Lemma finditer_placeholder_app (b : text) (n : nat) :
  forall a prev, List.length a < n ->
    finditer Workflow.PLACEHOLDER prev (a ++ placeholder ++ b)
    = finditer Workflow.PLACEHOLDER prev a
        ++ Hit (mkMatch placeholder [1; 1; 1; 1])
        :: finditer Workflow.PLACEHOLDER (Some "]"%char) b.
Proof.
  induction n as [|n IH]; intros a prev Hlen; [lia|].
  destruct a as [|c a].
  - rewrite app_nil_l. now rewrite finditer_placeholder_here, finditer_equation_1.
  - destruct (rmatch Workflow.PLACEHOLDER prev (c :: a)) as [l|] eqn:Ha.
    + apply placeholder_shape in Ha. destruct Ha as [_ [rest Hrest]].
      rewrite Hrest, <- app_assoc, !finditer_placeholder_here.
      simpl. f_equal. apply IH.
      apply (f_equal (@List.length ascii)) in Hrest.
      rewrite List.length_app in Hrest. simpl in *. lia.
    + assert (Hb : rmatch Workflow.PLACEHOLDER prev ((c :: a) ++ placeholder ++ b)
                   = None).
      { destruct (rmatch _ prev ((c :: a) ++ _)) as [l|] eqn:Hb; [|reflexivity].
        apply placeholder_shape in Hb. destruct Hb as [_ [rest Hrest]].
        assert (Hs : exists rest', c :: a = placeholder ++ rest').
        { unfold placeholder in *. simpl in Hrest.
          destruct a as [|c2 [|c3 [|c4 a']]]; simpl in Hrest;
            inversion Hrest; subst; try discriminate; now exists a'. }
        destruct Hs as [rest' Hs].
        assert (Hc : rmatch Workflow.PLACEHOLDER prev (c :: a)
                     = Some [1; 1; 1; 1])
          by (apply placeholder_shape; split; [reflexivity | now exists rest']).
        congruence. }
      rewrite <- app_comm_cons in Hb |- *.
      rewrite (finditer_miss _ _ _ _ Hb), (finditer_miss _ _ _ _ Ha).
      rewrite <- app_comm_cons. f_equal. apply IH. simpl in Hlen. lia.
Qed.

Lemma replace_placeholder_app (k a b : text) :
  Workflow.replace_placeholder k (a ++ placeholder ++ b)
  = Workflow.replace_placeholder k a ++ bracketed k
      ++ Workflow.replace_placeholder k b.
Proof.
  unfold Workflow.replace_placeholder, re_sub.
  rewrite (finditer_placeholder_app b (S (List.length a))) by lia.
  rewrite map_app, concat_app. simpl.
  now rewrite (finditer_prev _ (Some "]"%char) None b (placeholder_prev _ _)).
Qed.

(** ** Citation tokens *)

Lemma finditer_empty_match (r : regex) (prev : option ascii) (c : ascii)
  (s' : text) (lens : list nat) :
  rmatch r prev (c :: s') = Some lens ->
  list_sum lens = 0 ->
  finditer r prev (c :: s') = Lit c :: finditer r (Some c) s'.
Proof.
  intros H Hn. rewrite finditer_equation_2, H. simpl. rewrite Hn. reflexivity.
Qed.

(** A repetition runs over a whole run of the class when it succeeds behind
    it. *)
Lemma star_run (p : ascii -> bool) (k : cont) (rest : text) (n : nat)
  (ls : list nat) (ds : text) :
  forallb p ds = true ->
  (forall prev, star p k prev rest = Some (n, ls)) ->
  forall prev, star p k prev (ds ++ rest) = Some (List.length ds + n, ls).
Proof.
  intros Hds Hrest. induction ds as [|d ds IH]; intros prev; simpl.
  - apply Hrest.
  - simpl in Hds. apply andb_prop in Hds. destruct Hds as [Hd Hds].
    rewrite Hd, (IH Hds). reflexivity.
Qed.

(** A token [S] and digits between brackets matches the citation pattern. *)
Lemma citation_matches (prev : option ascii) (ds post : text) :
  ds <> [] -> forallb isdecimal ds = true ->
  rmatch Workflow.CITATION prev (bracketed ("S"%char :: ds) ++ post)
  = Some [1; 1; List.length ds; 1].
Proof.
  intros Hne Hds. destruct ds as [|d ds]; [easy|].
  simpl in Hds. apply andb_prop in Hds. destruct Hds as [Hd Hds].
  unfold bracketed, Workflow.CITATION. simpl. rewrite Hd.
  rewrite <- app_assoc. simpl.
  rewrite (star_run isdecimal _ ("]"%char :: post) 0 [1] ds Hds)
    by reflexivity.
  now rewrite Nat.add_0_r.
Qed.

(** The scan finds a match in every text where a token stands. *)
Lemma scan_finds_token (ds post : text) :
  ds <> [] -> forallb isdecimal ds = true ->
  forall pre prev,
    hits (finditer Workflow.CITATION prev
            (pre ++ bracketed ("S"%char :: ds) ++ post)) <> [].
Proof.
  intros Hne Hds pre. induction pre as [|c pre IH]; intros prev.
  - rewrite app_nil_l.
    pose proof (citation_matches prev ds post Hne Hds) as Hm.
    unfold bracketed in *. simpl app in *.
    rewrite (finditer_hit _ _ _ _ _ (S (List.length ds + 1)) Hm)
      by (simpl; lia).
    discriminate.
  - rewrite <- app_comm_cons.
    destruct (rmatch Workflow.CITATION prev
                (c :: pre ++ bracketed ("S"%char :: ds) ++ post))
      as [lens|] eqn:Hm.
    + destruct (list_sum lens) as [|n] eqn:Hn.
      * rewrite (finditer_empty_match _ _ _ _ _ Hm Hn). simpl. apply IH.
      * rewrite (finditer_hit _ _ _ _ _ _ Hm Hn). discriminate.
    + rewrite (finditer_miss _ _ _ _ Hm). simpl. apply IH.
Qed.

(** [re.search] with the citation pattern tells whether a well-formed token
    stands in the text. *)
Lemma search_citation_iff (t : text) :
  re_search Workflow.CITATION t = true <->
  exists ds, ds <> [] /\ forallb isdecimal ds = true
             /\ occurs (bracketed ("S"%char :: ds)) t.
Proof.
  unfold re_search, re_matches. split.
  - destruct (hits (finditer Workflow.CITATION None t)) as [|m ms] eqn:Hh;
      [discriminate|]. intros _.
    assert (Hin : In m (hits (finditer Workflow.CITATION None t)))
      by (rewrite Hh; now left).
    destruct (citation_hit _ _ _ Hin) as (ds & Hne & Hds & Hw & _ & Hocc).
    exists ds. rewrite <- Hw. auto.
  - intros (ds & Hne & Hds & pre & post & ->).
    pose proof (scan_finds_token ds post Hne Hds pre None) as H.
    now destruct (hits (finditer Workflow.CITATION None _)).
Qed.

(** ** The fallback on the catalog *)

(** The shape of a key in the reply of the researcher. *)
Lemma selected_key_shape (prev : option ascii) (s : text) (lens : list nat) :
  rmatch Workflow.SELECTED_KEY prev s = Some lens ->
  exists ds rest,
    ds <> [] /\ forallb isdecimal ds = true
    /\ s = "S"%char :: ds ++ rest /\ lens = [0; 1; List.length ds; 0].
Proof.
  unfold Workflow.SELECTED_KEY. simpl.
  destruct (xorb (is_word_at prev) (is_word_at (hd_error s))); [|discriminate].
  destruct s as [|x s]; [discriminate|].
  destruct (Ascii.eqb x "S") eqn:Hx; [|discriminate].
  apply Ascii.eqb_eq in Hx. subst x.
  destruct s as [|d s]; [discriminate|].
  destruct (isdecimal d) eqn:Hd; [|discriminate].
  destruct (star _ _ _ s) as [[n ls]|] eqn:Hs; [|discriminate].
  destruct (star_sound _ _ _ _ _ _ Hs) as (q & Ha & Hl & Hk).
  simpl in Hk.
  destruct (xorb (is_word_at q) (is_word_at (hd_error (skipn n s))));
    [|discriminate].
  inversion Hk; subst ls. intros H. inversion H; subst lens.
  exists (d :: firstn n s), (skipn n s). repeat split.
  - discriminate.
  - simpl. now rewrite Hd.
  - simpl. now rewrite firstn_skipn.
  - simpl. rewrite List.length_firstn, Nat.min_l by exact Hl. reflexivity.
Qed.

(** A reply without the letter S gives no key. *)
Lemma parse_without_S (t : text) :
  ~ In "S"%char t -> Workflow._parse_selected_keys t = [].
Proof.
  intros Hs. unfold Workflow._parse_selected_keys, re_matches.
  destruct (truthy t); [|reflexivity].
  destruct (hits (finditer Workflow.SELECTED_KEY None t)) as [|m ms] eqn:Hh;
    [reflexivity|]. exfalso.
  assert (Hin : In m (hits (finditer Workflow.SELECTED_KEY None t)))
    by (rewrite Hh; now left).
  destruct (hit_occurs _ _ _ _ Hin) as (pre & rest & q & -> & Hm & _).
  destruct (selected_key_shape _ _ _ Hm) as (ds & rest' & _ & _ & -> & _).
  apply Hs. apply in_or_app. right. now left.
Qed.

Lemma candidate_keys_catalog (sources : list Workflow.Source) :
  Workflow.candidate_keys sources = catalog_keys sources.
Proof.
  unfold catalog_keys. induction sources as [|s rest IH]; [reflexivity|].
  simpl. destruct (Workflow.key s) as [k|]; simpl; [|exact IH].
  destruct (truthy k); now rewrite IH.
Qed.

Lemma catalog_keys_all (sources : list Workflow.Source) (ks : list text) :
  map Workflow.key sources = map Some ks ->
  Forall (fun k => k <> []) ks ->
  catalog_keys sources = ks.
Proof.
  unfold catalog_keys. revert ks.
  induction sources as [|s rest IH]; intros [|k ks] Hm Hne; try discriminate.
  - reflexivity.
  - simpl in Hm. injection Hm as Hk Hm. inversion Hne; subst.
    simpl. rewrite Hk. simpl.
    destruct k as [|c k]; [easy|]. simpl. f_equal. now apply IH.
Qed.

(** C6.  When no key is parsed from the reply of the researcher, as when
    the reply holds no letter S, the selected keys are the first two keys of
    the catalog in the order of the catalog, a source without key or with an
    empty key being passed over: the keys of the first two sources when
    every source has a key, S1 and S2 when the keys of the sources are S1, S2
    and S3 in this order.  These are the keys with which the text is
    sanitized, for keys free of backslashes.  When a key is parsed the
    catalog is not looked at. *)
Theorem C6_fallback_to_first_two_keys (keys_raw : text)
  (sources : list Workflow.Source) :
  (~ In "S"%char keys_raw -> Workflow._parse_selected_keys keys_raw = [])
  /\ (Workflow._parse_selected_keys keys_raw <> [] ->
      Workflow.select_keys keys_raw sources
      = Workflow._parse_selected_keys keys_raw)
  /\ (Workflow._parse_selected_keys keys_raw = [] ->
      Workflow.select_keys keys_raw sources = firstn 2 (catalog_keys sources)
      /\ (forall ks, map Workflow.key sources = map Some ks ->
                     Forall (fun k => k <> []) ks ->
                     Workflow.select_keys keys_raw sources = firstn 2 ks)
      /\ (map Workflow.key sources
          = [Some (str "S1"); Some (str "S2"); Some (str "S3")] ->
          Workflow.select_keys keys_raw sources = [str "S1"; str "S2"])
      /\ ((forall k, In k (catalog_keys sources) -> ~ In "\"%char k) ->
          forall adapter edited,
            Workflow.run_generation_with_crew sources
              (Workflow.Said keys_raw) adapter (Workflow.Said edited)
            = Some (Workflow.sanitize_and_return (strip edited)
                      (match adapter with
                       | Workflow.Said t => strip t
                       | Workflow.Raised => []
                       end)
                      (firstn 2 (catalog_keys sources))))).
Proof.
  split; [apply parse_without_S | split].
  - unfold Workflow.select_keys.
    now destruct (Workflow._parse_selected_keys keys_raw).
  - intros H.
    assert (Hsel : Workflow.select_keys keys_raw sources
                   = firstn 2 (catalog_keys sources)).
    { unfold Workflow.select_keys. rewrite H.
      now rewrite candidate_keys_catalog. }
    split; [exact Hsel | split; [|split]].
    + intros ks Hm Hne. now rewrite Hsel, (catalog_keys_all sources ks Hm Hne).
    + intros Hm. rewrite Hsel.
      rewrite (catalog_keys_all sources [str "S1"; str "S2"; str "S3"] Hm).
      * reflexivity.
      * repeat constructor; discriminate.
    + intros _ adapter edited. unfold Workflow.run_generation_with_crew.
      now rewrite Hsel.
Qed.

Lemma C6_witness :
  Workflow.select_keys (str "I could not decide.") catalog
  = [str "S1"; str "S2"]
  /\ Workflow.select_keys (str "None of them, sorry")
       [ Workflow.mkSource None (Some (str "No key")) None None;
         Workflow.mkSource (Some (str "S7")) None None None;
         Workflow.mkSource (Some []) None None None;
         Workflow.mkSource (Some (str "S3")) None None None;
         Workflow.mkSource (Some (str "S1")) None None None ]
     = [str "S7"; str "S3"].
Proof.
  split.
  - apply (proj1 (proj2 (proj2 (proj2 (proj2
             (C6_fallback_to_first_two_keys (str "I could not decide.")
                catalog)) eq_refl)))).
    reflexivity.
  - exact (proj1 (proj2 (proj2
             (C6_fallback_to_first_two_keys (str "None of them, sorry")
                [ Workflow.mkSource None (Some (str "No key")) None None;
                  Workflow.mkSource (Some (str "S7")) None None None;
                  Workflow.mkSource (Some []) None None None;
                  Workflow.mkSource (Some (str "S3")) None None None;
                  Workflow.mkSource (Some (str "S1")) None None None ]))
             eq_refl)).
Defined.

(** C1.  With the selected key S2, the edited text
    [Sleep aids memory [S[S9]1].] is returned as [Sleep aids memory [S1].]:
    the one pass of the filter removes the inner token and leaves a token
    whose key S1 was never selected. *)
Theorem C1_foreign_citation_survives :
  Workflow.select_keys (str "S2") catalog = [str "S2"]
  /\ Workflow.run_generation_with_crew catalog
       (Workflow.Said (str "S2"))
       (Workflow.Said (str "Sleep aids memory [S2]."))
       (Workflow.Said (str "Sleep aids memory [S[S9]1]."))
     = Some (str "Sleep aids memory [S1].")
  /\ cited_keys (str "Sleep aids memory [S1].") = [str "S1"]
  /\ mem (str "S1") [str "S2"] = false.
Proof. vm_compute. repeat split; reflexivity. Qed.

(** C2.  On the same replies the returned text is a single paragraph, and
    the only citation token of that paragraph has the key S1, which is not
    among the selected keys. *)
Theorem C2_paragraph_without_selected_citation :
  Workflow.sanitize_and_return (str "Sleep aids memory [S[S9]1].")
    (str "Sleep aids memory [S2].") [str "S2"]
  = str "Sleep aids memory [S1]."
  /\ paragraphs (str "Sleep aids memory [S1].")
     = [str "Sleep aids memory [S1]."]
  /\ existsb (fun k => mem k [str "S2"])
       (cited_keys (str "Sleep aids memory [S1].")) = false.
Proof. vm_compute. repeat split; reflexivity. Qed.

(** C3.  When the edited text is empty and a key is selected, the last
    resort appends the bracketed first key to the empty text, and that is
    returned: the adapted text is never reached.  It is reached only when no
    key is selected. *)
Theorem C3_empty_edit_returns_bare_citation :
  (forall adapted k ks,
      Workflow.sanitize_and_return [] adapted (k :: ks)
      = " "%char :: bracketed k)
  /\ Workflow.run_generation_with_crew catalog
       (Workflow.Said (str "S1"))
       (Workflow.Said (str "Sleep aids memory [S1]."))
       (Workflow.Said [])
     = Some (str " [S1]")
  /\ Workflow._sanitize_citations (str "Sleep aids memory [S1].") [str "S1"]
     = str "Sleep aids memory [S1]."
  /\ (forall adapted,
        Workflow.sanitize_and_return [] adapted []
        = Workflow._sanitize_citations adapted []).
Proof.
  split; [|split; [|split]].
  - intros adapted k ks. unfold Workflow.sanitize_and_return. cbv zeta.
    unfold Workflow._sanitize_citations at 1. simpl truthy. cbv iota.
    unfold Workflow.replace_placeholder at 1, re_sub at 1.
    rewrite finditer_equation_1. simpl.
    unfold re_search, re_matches. rewrite finditer_equation_1. reflexivity.
  - vm_compute. reflexivity.
  - vm_compute. reflexivity.
  - intros adapted. unfold Workflow.sanitize_and_return. cbv zeta.
    simpl. reflexivity.
Qed.

(** C4.  Filtering [Sleep aids memory [S[S9]1].] with the allowed key S2
    gives [Sleep aids memory [S1].], and filtering that again removes the
    token that the first pass had put together. *)
Theorem C4_second_pass_changes_text :
  Workflow._sanitize_citations (str "Sleep aids memory [S[S9]1].") [str "S2"]
  = str "Sleep aids memory [S1]."
  /\ Workflow._sanitize_citations
       (Workflow._sanitize_citations (str "Sleep aids memory [S[S9]1].")
          [str "S2"]) [str "S2"]
     = str "Sleep aids memory ."
  /\ Workflow._sanitize_citations
       (Workflow._sanitize_citations (str "Sleep aids memory [S[S9]1].")
          [str "S2"]) [str "S2"]
     <> Workflow._sanitize_citations (str "Sleep aids memory [S[S9]1].")
          [str "S2"].
Proof. vm_compute. repeat split; try reflexivity. discriminate. Qed.

(** ** The similarity score *)

Lemma dropwhile_head (p : ascii -> bool) (s : text) (c : ascii) (t : text) :
  dropwhile p s = c :: t -> p c = false.
Proof.
  induction s as [|a s IH]; simpl; [discriminate|].
  destruct (p a) eqn:Ha; [exact IH|].
  intros H. inversion H; subst. exact Ha.
Qed.

(** A stripped text does not begin with whitespace. *)
Lemma strip_head (s : text) (c : ascii) (t : text) :
  strip s = c :: t -> isspace c = false.
Proof.
  unfold strip, lstrip. destruct (dropwhile isspace s) as [|d s'] eqn:Hd.
  - discriminate.
  - pose proof (dropwhile_head _ _ _ _ Hd) as Hsp.
    rewrite rstrip_cons by exact Hsp. intros H. inversion H; subst. exact Hsp.
Qed.

Lemma text_eqb_refl (x : text) : text_eqb x x = true.
Proof. unfold text_eqb. now destruct (list_eq_dec ascii_dec x x). Qed.

Lemma exact_ratio_bounds (a b : text) :
  (0 <= exact_ratio a b <= 100)%Q.
Proof.
  unfold exact_ratio.
  destruct (text_eqb a b && existsb (fun c => negb (isspace c)) a);
    split; discriminate.
Qed.

Lemma exact_ratio_same (x : text) :
  (exists c, In c x /\ isspace c = false) -> (exact_ratio x x == 100)%Q.
Proof.
  intros (c & Hin & Hc). unfold exact_ratio. rewrite text_eqb_refl.
  assert (H : existsb (fun c => negb (isspace c)) x = true).
  { apply existsb_exists. exists c. now rewrite Hc. }
  rewrite H. reflexivity.
Qed.

Section Contract.

(** What the documentation of rapidfuzz states about [token_set_ratio]: a
    score between 0 and 100, which is 100 for a text with at least one token
    and itself. *)
Variable token_set_ratio : text -> text -> Q.

Hypothesis ratio_bounds :
  forall a b, (0 <= token_set_ratio a b <= 100)%Q.

Hypothesis ratio_same :
  forall x, (exists c, In c x /\ isspace c = false) ->
            (token_set_ratio x x == 100)%Q.

(** C8.  The score is null exactly when the abstract is missing or empty;
    otherwise it lies between 0 and 1, and the score of a non-empty
    normalized text with itself is 1. *)
Theorem C8_similarity_null_bounds_and_self :
  (forall a b,
      Ledger.similarity token_set_ratio a b = None
      <-> (b = None \/ b = Some []))
  /\ (forall a b v,
        Ledger.similarity token_set_ratio a b = Some v -> (0 <= v <= 1)%Q)
  /\ (forall x,
        x <> [] -> Ledger._norm x = x ->
        exists v, Ledger.similarity token_set_ratio x (Some x) = Some v
                  /\ (v == 1)%Q).
Proof.
  split; [|split].
  - intros a [[|c b]|]; simpl; split; auto; try discriminate.
    intros [H | H]; discriminate H.
  - intros a [[|c b]|] v; simpl; try discriminate.
    intros H. inversion H; subst v.
    destruct (ratio_bounds (Ledger._norm a) (Ledger._norm (c :: b))) as [Hlo Hhi].
    split.
    + apply Qle_shift_div_l; [reflexivity|]. now rewrite Qmult_0_l.
    + apply Qle_shift_div_r; [reflexivity|]. now rewrite Qmult_1_l.
  - intros [|c x] Hne Hnorm; [easy|]. simpl.
    eexists. split; [reflexivity|]. rewrite Hnorm.
    assert (Hc : isspace c = false).
    { unfold Ledger._norm in Hnorm. exact (strip_head _ _ _ Hnorm). }
    rewrite (ratio_same (c :: x)) by (exists c; split; [now left | exact Hc]).
    reflexivity.
Qed.

End Contract.

Lemma C8_witness :
  exists v,
    Ledger.similarity exact_ratio (str "Neurons fire.")
      (Some (str "Neurons fire.")) = Some v
    /\ (v == 1)%Q.
Proof.
  apply (proj2 (proj2 (C8_similarity_null_bounds_and_self exact_ratio
                         exact_ratio_bounds exact_ratio_same))).
  - discriminate.
  - vm_compute. reflexivity.
Defined.

(** * Further properties of the code *)

(** ** Keys and sets of keys *)

Lemma mem_In (k : text) (l : list text) : mem k l = true <-> In k l.
Proof.
  unfold mem. rewrite existsb_exists. split.
  - intros (x & Hin & He). unfold text_eqb in He.
    destruct (list_eq_dec ascii_dec k x); [now subst | discriminate].
  - intros H. exists k. split; [exact H | apply text_eqb_refl].
Qed.

Lemma keep_unseen_fresh (keys : list text) :
  forall seen k, In k (keep_unseen seen keys) -> mem k seen = false.
Proof.
  induction keys as [|a keys IH]; intros seen k H; simpl in H; [easy|].
  destruct (mem a seen) eqn:Ha; [now apply IH|].
  destruct H as [<- | H]; [exact Ha|].
  apply IH in H. simpl in H. now apply orb_false_elim in H.
Qed.

Lemma keep_unseen_NoDup (keys : list text) :
  forall seen, NoDup (keep_unseen seen keys).
Proof.
  induction keys as [|a keys IH]; intros seen; simpl; [constructor|].
  destruct (mem a seen); [apply IH|].
  constructor; [|apply IH].
  intros H. apply keep_unseen_fresh in H. simpl in H.
  now rewrite text_eqb_refl in H.
Qed.

Lemma keep_unseen_complete (keys : list text) :
  forall seen k, In k keys -> mem k seen = false -> In k (keep_unseen seen keys).
Proof.
  induction keys as [|a keys IH]; intros seen k H Hs; simpl in *; [easy|].
  destruct H as [-> | H].
  - rewrite Hs. now left.
  - destruct (mem a seen) eqn:Ha; [now apply IH|].
    destruct (text_eqb k a) eqn:Hka.
    + left. unfold text_eqb in Hka.
      now destruct (list_eq_dec ascii_dec k a).
    + right. apply IH; [exact H|]. simpl. now rewrite Hka.
Qed.

Lemma is_key_digits (ds : text) :
  ds <> [] -> forallb isdecimal ds = true -> is_key ("S"%char :: ds) = true.
Proof. intros Hne Hds. destruct ds as [|d ds]; [easy|]. exact Hds. Qed.

Lemma is_key_shape (k : text) :
  is_key k = true ->
  exists ds, ds <> [] /\ forallb isdecimal ds = true /\ k = "S"%char :: ds.
Proof.
  destruct k as [|c [|d ds]]; try discriminate. simpl.
  intros H. apply andb_prop in H. destruct H as [Hc Hds].
  apply Ascii.eqb_eq in Hc. subst c. now exists (d :: ds).
Qed.

(** X1.  The keys parsed from the reply of the researcher are made of the
    letter S and digits, each of them stands in the reply, and none comes
    twice. *)
Theorem parsed_keys_wellformed_and_unique (t : text) :
  NoDup (Workflow._parse_selected_keys t)
  /\ forall k, In k (Workflow._parse_selected_keys t) ->
               is_key k = true /\ occurs k t.
Proof.
  unfold Workflow._parse_selected_keys. destruct (truthy t).
  - split; [apply keep_unseen_NoDup|].
    intros k Hk. apply keep_unseen_In, in_map_iff in Hk.
    destruct Hk as (m & <- & Hin). unfold re_matches in Hin.
    destruct (hit_occurs _ _ _ _ Hin) as (pre & rest & q & Hs & Hm & Hw).
    destruct (selected_key_shape _ _ _ Hm) as (ds & rest' & Hne & Hds & Hr & Hl).
    assert (Hwhole : whole m = "S"%char :: ds).
    { rewrite Hw, Hl, Hr. simpl. f_equal.
      rewrite Nat.add_0_r.
      replace (List.length ds) with (List.length ds + 0) by lia.
      rewrite firstn_app_2. simpl. now rewrite app_nil_r. }
    rewrite Hwhole. split; [now apply is_key_digits|].
    exists pre, rest'. rewrite Hs, Hr. reflexivity.
  - split; [constructor | easy].
Qed.

Lemma parsed_keys_wellformed_and_unique_witness :
  is_key (str "S3") = true /\ occurs (str "S3") (str "S1, S3 and S1").
Proof.
  apply (proj2 (parsed_keys_wellformed_and_unique (str "S1, S3 and S1"))).
  vm_compute. right. left. reflexivity.
Defined.

(** ** The filter and the enforcement *)

(** The pieces of a scan, put together again, are the text. *)
Lemma pieces_reassemble (r : regex) (prev : option ascii) (s : text) :
  List.concat (map (piece_text whole) (finditer r prev s)) = s.
Proof.
  apply (finditer_elim
           (fun r prev s res => List.concat (map (piece_text whole) res) = s)).
  - reflexivity.
  - intros r0 p c s' IH _. simpl. now rewrite IH.
  - intros r0 p c s' lens IH _ _. simpl. now rewrite IH.
  - intros r0 p c s' lens n IH _ _. simpl. rewrite IH.
    now rewrite firstn_skipn.
Qed.

Lemma hits_In (m : Match) (ps : list piece) : In m (hits ps) <-> In (Hit m) ps.
Proof.
  induction ps as [|[c|m'] ps IH]; simpl.
  - tauto.
  - rewrite IH. split; [now right | intros [H | H]; [discriminate | exact H]].
  - rewrite IH. split; intros [H | H]; auto; [left; congruence|].
    left. now inversion H.
Qed.

Lemma sub_ext (f g : Match -> text) (ps : list piece) :
  (forall m, In m (hits ps) -> f m = g m) ->
  List.concat (map (piece_text f) ps) = List.concat (map (piece_text g) ps).
Proof.
  induction ps as [|[c|m] ps IH]; intros H; simpl in *.
  - reflexivity.
  - now rewrite IH.
  - rewrite IH by auto. now rewrite (H m) by now left.
Qed.

Lemma search_true_truthy (r : regex) (s : text) :
  re_search r s = true -> truthy s = true.
Proof.
  destruct s; [|reflexivity].
  unfold re_search, re_matches. now rewrite finditer_equation_1.
Qed.

(** The key of a match of the citation pattern, between brackets, is the
    match. *)
Lemma cited_key_token (m : Match) (prev : option ascii) (s : text) :
  In m (hits (finditer Workflow.CITATION prev s)) ->
  bracketed ("S"%char :: span 2 3 m) = whole m
  /\ is_key ("S"%char :: span 2 3 m) = true.
Proof.
  intros Hin.
  destruct (citation_hit _ _ _ Hin) as (ds & Hne & Hds & Hw & Hl & _).
  destruct (span_digits _ _ Hw Hl) as [-> _].
  split; [now rewrite Hw | now apply is_key_digits].
Qed.

(** X2.  A text whose citation tokens all have an allowed key goes through
    the filter unchanged. *)
Theorem sanitize_keeps_approved_text (t : text) (allowed : list text) :
  (forall k, In k (cited_keys t) -> mem k allowed = true) ->
  Workflow._sanitize_citations t allowed = t.
Proof.
  intros H. unfold Workflow._sanitize_citations.
  destruct (truthy t); [|reflexivity]. unfold re_sub.
  rewrite (sub_ext (Workflow.repl allowed) whole); [apply pieces_reassemble|].
  intros m Hm. unfold Workflow.repl.
  rewrite H; [reflexivity|].
  unfold cited_keys, re_matches. apply in_map_iff. now exists m.
Qed.

Lemma sanitize_keeps_approved_text_witness :
  Workflow._sanitize_citations (str "Sleep [S1] aids memory [S3] [S#].")
    [str "S3"; str "S1"]
  = str "Sleep [S1] aids memory [S3] [S#].".
Proof.
  apply sanitize_keeps_approved_text.
  intros k Hk. vm_compute in Hk.
  destruct Hk as [<- | [<- | []]]; reflexivity.
Defined.

Lemma sub_length_le (allowed : list text) (ps : list piece) :
  List.length (List.concat (map (piece_text (Workflow.repl allowed)) ps))
  <= List.length (List.concat (map (piece_text whole) ps)).
Proof.
  induction ps as [|[c|m] ps IH]; simpl.
  - lia.
  - lia.
  - rewrite !List.length_app.
    assert (H : List.length (Workflow.repl allowed m) <= List.length (whole m))
      by (unfold Workflow.repl; destruct (mem _ allowed); simpl; lia).
    lia.
Qed.

(** X3.  The filter never drops an approved citation and never adds a
    character: a token of the text with an allowed key still stands in the
    result, which is not longer than the text. *)
Theorem sanitize_keeps_approved_citations (t : text) (allowed : list text) :
  List.length (Workflow._sanitize_citations t allowed) <= List.length t
  /\ forall k, In k (cited_keys t) -> mem k allowed = true ->
               occurs (bracketed k) (Workflow._sanitize_citations t allowed).
Proof.
  unfold Workflow._sanitize_citations, cited_keys, re_matches.
  destruct t as [|c t].
  - split; [simpl; lia|]. rewrite finditer_equation_1. intros k [].
  - simpl truthy. cbv iota. unfold re_sub. split.
    + rewrite <- (pieces_reassemble Workflow.CITATION None (c :: t)) at 2.
      apply sub_length_le.
    + intros k Hk Hmem. apply in_map_iff in Hk. destruct Hk as (m & <- & Hm).
      destruct (cited_key_token _ _ _ Hm) as [Htok _].
      apply hits_In, in_split in Hm. destruct Hm as (l1 & l2 & ->).
      rewrite map_app, concat_app. simpl.
      exists (List.concat (map (piece_text (Workflow.repl allowed)) l1)),
        (List.concat (map (piece_text (Workflow.repl allowed)) l2)).
      unfold Workflow.repl at 2. now rewrite Hmem, Htok.
Qed.

Lemma sanitize_keeps_approved_citations_witness :
  occurs (bracketed (str "S2"))
    (Workflow._sanitize_citations (str "Sleep [S9] aids memory [S2].")
       [str "S2"]).
Proof.
  apply (proj2 (sanitize_keeps_approved_citations
                  (str "Sleep [S9] aids memory [S2].") [str "S2"])).
  - vm_compute. right. left. reflexivity.
  - reflexivity.
Defined.

(** What the part Sanitize and Return gives when a key is selected: the
    enforced edited text, with the bracketed first key behind it when it has
    no citation token. *)
Lemma sanitize_and_return_selected (final adapted k : text) (ks : list text) :
  Workflow.sanitize_and_return final adapted (k :: ks)
  = let e := Workflow._ensure_citation_per_paragraph
               (Workflow.replace_placeholder k
                  (Workflow._sanitize_citations final (k :: ks))) (k :: ks) in
    if re_search Workflow.CITATION e then e
    else rstrip e ++ " "%char :: bracketed k.
Proof.
  unfold Workflow.sanitize_and_return. cbv zeta.
  set (e := Workflow._ensure_citation_per_paragraph _ (k :: ks)).
  destruct (re_search Workflow.CITATION e) eqn:Hs; simpl negb; cbv iota.
  - now rewrite (search_true_truthy _ _ Hs).
  - now destruct (rstrip e).
Qed.

(** X4.  Once a key is selected, and for a first key free of backslashes,
    the text returned does not depend on the adapted text, and it is never
    empty. *)
Theorem selected_key_makes_adapted_text_dead (final k : text) (ks : list text) :
  ~ In "\"%char k ->
  (forall adapted adapted',
      Workflow.sanitize_and_return final adapted (k :: ks)
      = Workflow.sanitize_and_return final adapted' (k :: ks))
  /\ forall adapted,
       Workflow.sanitize_and_return final adapted (k :: ks) <> [].
Proof.
  intros _. split.
  - intros a a'. now rewrite !sanitize_and_return_selected.
  - intros a. rewrite sanitize_and_return_selected. cbv zeta.
    set (e := Workflow._ensure_citation_per_paragraph _ (k :: ks)).
    destruct (re_search Workflow.CITATION e) eqn:Hs.
    + apply search_true_truthy in Hs. now destruct e.
    + now destruct (rstrip e).
Qed.

Lemma selected_key_makes_adapted_text_dead_witness :
  Workflow.sanitize_and_return (str "No source at hand.")
    (str "Sleep aids memory [S2].") [str "S2"; str "S3"]
  = Workflow.sanitize_and_return (str "No source at hand.") []
      [str "S2"; str "S3"].
Proof.
  assert (H : ~ In "\"%char (str "S2"))
    by (simpl; intros [H | [H | []]]; discriminate H).
  exact (proj1 (selected_key_makes_adapted_text_dead
                  (str "No source at hand.") (str "S2") [str "S3"] H) _ _).
Defined.

Lemma key_token_found (k pre : text) :
  is_key k = true ->
  re_search Workflow.CITATION (pre ++ " "%char :: bracketed k) = true.
Proof.
  intros Hk. destruct (is_key_shape _ Hk) as (ds & Hne & Hds & ->).
  apply search_citation_iff. exists ds. repeat split; auto.
  exists (pre ++ [" "%char]), []. now rewrite <- app_assoc, app_nil_r.
Qed.

(** X5.  When the first selected key is well formed the text returned
    holds at least one citation token, whatever the editor and the adapter
    have written. *)
Theorem returned_text_has_a_citation (final adapted k : text) (ks : list text) :
  is_key k = true ->
  re_search Workflow.CITATION
    (Workflow.sanitize_and_return final adapted (k :: ks)) = true.
Proof.
  intros Hk. rewrite sanitize_and_return_selected. cbv zeta.
  set (e := Workflow._ensure_citation_per_paragraph _ (k :: ks)).
  destruct (re_search Workflow.CITATION e) eqn:Hs; [exact Hs|].
  now apply key_token_found.
Qed.

Lemma returned_text_has_a_citation_witness :
  re_search Workflow.CITATION
    (Workflow.sanitize_and_return (str "No source at hand.") []
       [str "S2"; str "S3"]) = true.
Proof. apply returned_text_has_a_citation. reflexivity. Defined.

(** ** Paragraphs and claims *)

Lemma dropwhile_idem (p : ascii -> bool) (s : text) :
  dropwhile p (dropwhile p s) = dropwhile p s.
Proof.
  induction s as [|c s IH]; simpl; [reflexivity|].
  destruct (p c) eqn:Hc; [exact IH|]. simpl. now rewrite Hc.
Qed.

Lemma rstrip_idem (s : text) : rstrip (rstrip s) = rstrip s.
Proof. unfold rstrip. now rewrite rev_involutive, dropwhile_idem. Qed.

Lemma strip_idem (s : text) : strip (strip s) = strip s.
Proof.
  unfold strip at 2 3. unfold lstrip.
  destruct (dropwhile isspace s) as [|d s'] eqn:Hd; [reflexivity|].
  pose proof (dropwhile_head _ _ _ _ Hd) as Hsp.
  rewrite rstrip_cons by exact Hsp.
  rewrite strip_cons by exact Hsp. now rewrite rstrip_idem.
Qed.

Lemma flush_paragraphs (st : Ledger.pstate) :
  Forall (fun sp => fst sp <> [] /\ snd sp <> [] /\ strip (snd sp) = snd sp)
    (Ledger.flush st).
Proof.
  unfold Ledger.flush. destruct (Ledger.buf st); [constructor|].
  set (para := strip (join [LF] (t :: l))).
  destruct (truthy para) eqn:Hp; [|constructor].
  constructor; [|constructor]. cbn [fst snd]. repeat split.
  - match goal with |- context [truthy ?x] => destruct x end; discriminate.
  - now destruct para.
  - apply strip_idem.
Qed.

Lemma step_yields (st : Ledger.pstate) (ln : text) :
  fst (Ledger.step st ln) = Ledger.flush st \/ fst (Ledger.step st ln) = [].
Proof.
  unfold Ledger.step.
  destruct (re_match Ledger.H1 ln); [now left|].
  destruct (re_match Ledger.H2 ln); [now left|].
  destruct (text_eqb (strip ln) []); [now left | now right].
Qed.

(** X6.  Every paragraph that the extractor yields is non-empty and
    stripped of the whitespace around it, and comes with a section label
    that is never empty. *)
Theorem yielded_paragraphs_are_stripped_and_labelled (md_text : text) :
  Forall (fun sp => fst sp <> [] /\ snd sp <> [] /\ strip (snd sp) = snd sp)
    (Ledger._iter_paragraphs md_text).
Proof.
  unfold Ledger._iter_paragraphs.
  generalize (Ledger.mkPstate None None []) as st.
  induction (splitlines md_text) as [|ln lines IH]; intros st; simpl.
  - apply flush_paragraphs.
  - apply Forall_app. split; [|apply IH].
    destruct (step_yields st ln) as [-> | ->];
      [apply flush_paragraphs | constructor].
Qed.

Lemma keep_unseen_nil_iff (keys : list text) :
  keep_unseen [] keys = [] <-> keys = [].
Proof. destruct keys; simpl; split; intros H; try reflexivity; discriminate. Qed.

Lemma para_keys_nil_iff (para : text) :
  Ledger.para_keys para = [] <-> re_search Ledger.SRC_KEYS para = false.
Proof.
  unfold Ledger.para_keys, re_search. rewrite keep_unseen_nil_iff.
  destruct (re_matches Ledger.SRC_KEYS para); simpl; split; intros H;
    try reflexivity; discriminate.
Qed.

Lemma para_keys_wellformed (para k : text) :
  In k (Ledger.para_keys para) -> is_key k = true.
Proof.
  unfold Ledger.para_keys, re_matches. intros H.
  apply keep_unseen_In, in_map_iff in H. destruct H as (m & <- & Hin).
  destruct (citation_hit _ _ _ Hin) as (ds & Hne & Hds & Hw & Hl & _).
  destruct (span_digits _ _ Hw Hl) as [_ ->]. now apply is_key_digits.
Qed.

Lemma extract_claims_from_filter (paragraphs : list (text * text)) :
  map fst (Ledger.extract_claims_from paragraphs)
  = filter (fun sp => re_search Ledger.SRC_KEYS (snd sp)) paragraphs.
Proof.
  induction paragraphs as [|[sec para] rest IH]; simpl; [reflexivity|].
  destruct (Ledger.para_keys para) as [|k keys] eqn:Hk.
  - apply para_keys_nil_iff in Hk. now rewrite Hk.
  - destruct (re_search Ledger.SRC_KEYS para) eqn:Hs.
    + simpl. now rewrite IH.
    + apply para_keys_nil_iff in Hs. congruence.
Qed.

(** X7.  The claims are the yielded paragraphs in which a citation token is
    found, in the order of the document; the keys of a claim are not empty,
    are made of the letter S and digits, and none comes twice. *)
Theorem claims_are_the_cited_paragraphs (md_text : text) :
  map fst (Ledger.extract_claims md_text)
  = filter (fun sp => re_search Ledger.SRC_KEYS (snd sp))
      (Ledger._iter_paragraphs md_text)
  /\ forall section para keys,
       In (section, para, keys) (Ledger.extract_claims md_text) ->
       keys <> [] /\ NoDup keys /\ forall k, In k keys -> is_key k = true.
Proof.
  split; [apply extract_claims_from_filter|].
  intros sec para keys Hin. unfold Ledger.extract_claims in Hin.
  pose proof (extract_claims_from_keys _ _ _ _ Hin) as Hk.
  repeat split.
  - clear Hk. induction (Ledger._iter_paragraphs md_text) as [|[s p] l IH];
      simpl in Hin; [easy|].
    destruct (Ledger.para_keys p) eqn:Hp; [exact (IH Hin)|].
    destruct Hin as [H | H]; [|exact (IH H)].
    inversion H. discriminate.
  - subst keys. apply keep_unseen_NoDup.
  - subst keys. intros k. apply para_keys_wellformed.
Qed.

Lemma claims_are_the_cited_paragraphs_witness :
  [str "S1"; str "S2"] <> []
  /\ NoDup [str "S1"; str "S2"]
  /\ forall k, In k [str "S1"; str "S2"] -> is_key k = true.
Proof.
  apply (proj2 (claims_are_the_cited_paragraphs (str "# Intro
Neurons fire. [S1] [S2] [S1]

No citation here."))
           (str "Intro") (str "Neurons fire. [S1] [S2] [S1]")).
  vm_compute. left. reflexivity.
Defined.

(** ** The ledger *)

Lemma rows_of_fields (ratio : text -> text -> Q) (project : text)
  (refs abstracts : Ledger.dict) (now : nat)
  (claims : list (text * text * list text)) :
  map row_claim (Ledger.rows_of ratio project refs abstracts now claims)
  = flat_map claim_pairs claims
  /\ Forall
       (fun r =>
          Ledger.project_id r = project
          /\ Ledger.created_at r = now
          /\ Ledger.source_citation r
             = match Ledger.dict_get (Ledger.source_key r) refs with
               | Some c => c
               | None => []
               end
          /\ Ledger.similarity_score r
             = Ledger.similarity ratio (Ledger.claim_text r)
                 (Ledger.dict_get (Ledger.source_key r) abstracts))
       (Ledger.rows_of ratio project refs abstracts now claims).
Proof.
  unfold Ledger.rows_of.
  induction claims as [|[[sec para] keys] rest [IH1 IH2]]; simpl;
    [split; [reflexivity | constructor]|].
  split.
  - rewrite map_app, IH1. f_equal. unfold claim_pairs. simpl.
    rewrite map_map. reflexivity.
  - apply Forall_app. split; [|exact IH2].
    apply Forall_forall. intros r Hr. apply in_map_iff in Hr.
    destruct Hr as (k & <- & _). simpl. auto.
Qed.

(** X8.  When [log_claims_from_markdown] returns, the number it returns is
    the number of the rows it has built, and these rows are, in the order of
    the document, one row for each claim and each of its keys: the section
    and the paragraph of the claim, the key, the project and the time of the
    call, the citation string that [references_map] has for the key, empty
    when it has none, and the similarity of the paragraph with what
    [abstracts_map] has for the key. *)
Theorem logged_rows_are_the_claim_key_pairs
  (ratio : text -> text -> Q) (db : Ledger.database) (project md : text)
  (data : list Ledger.SourceItem) (now : nat)
  (rows : list Ledger.LedgerRow) (n : nat) (db' : Ledger.database) :
  Ledger.log_claims_from_markdown ratio db project md data now
  = Some (rows, n, db') ->
  n = List.length rows
  /\ map row_claim rows = flat_map claim_pairs (Ledger.extract_claims md)
  /\ Forall
       (fun r =>
          Ledger.project_id r = project
          /\ Ledger.created_at r = now
          /\ Ledger.source_citation r
             = match Ledger.dict_get (Ledger.source_key r)
                       (fst (Ledger.load_sources_maps data ([], []))) with
               | Some c => c
               | None => []
               end
          /\ Ledger.similarity_score r
             = Ledger.similarity ratio (Ledger.claim_text r)
                 (Ledger.dict_get (Ledger.source_key r)
                    (snd (Ledger.load_sources_maps data ([], [])))))
       rows.
Proof.
  unfold Ledger.log_claims_from_markdown.
  set (maps := Ledger.load_sources_maps data ([], [])).
  destruct (rows_of_fields ratio project (fst maps) (snd maps) now
              (Ledger.extract_claims md)) as [Hc Hf].
  destruct (Ledger.insert_rows _ _) as [d|]; [|discriminate].
  intros H. injection H as <- <- _. auto.
Qed.

Lemma logged_rows_are_the_claim_key_pairs_witness :
  exists rows,
    map row_claim rows
    = [(str "Intro", str "Neurons fire. [S1] [S7]", str "S1");
       (str "Intro", str "Neurons fire. [S1] [S7]", str "S7")]
    /\ map Ledger.source_citation rows = [str "(2020) Firing. "; []].
Proof.
  eassert (Hlog : Ledger.log_claims_from_markdown exact_ratio None (str "demo")
                    (str "# Intro
Neurons fire. [S1] [S7]")
                    [Ledger.mkItem (Some (str "S1")) (Some (str "Firing"))
                       (Some 2020) None None (Some (str "Neurons fire."))] 0
                  = Some (_, _, _))
    by (vm_compute; reflexivity).
  destruct (logged_rows_are_the_claim_key_pairs _ _ _ _ _ _ _ _ _ Hlog)
    as (_ & Hc & _).
  eexists. split; [exact Hc | reflexivity].
Defined.

(** ** The maps of the sources *)

Lemma text_eqb_eq (a b : text) : text_eqb a b = true <-> a = b.
Proof. unfold text_eqb. destruct (list_eq_dec ascii_dec a b); split; easy. Qed.

Lemma text_eqb_neq (a b : text) : text_eqb a b = false <-> a <> b.
Proof. unfold text_eqb. destruct (list_eq_dec ascii_dec a b); split; easy. Qed.

Lemma dict_get_set_same (k v : text) (d : Ledger.dict) :
  Ledger.dict_get k (Ledger.dict_set k v d) = Some v.
Proof.
  induction d as [|[k' v'] d IH]; simpl.
  - now rewrite text_eqb_refl.
  - destruct (text_eqb k k') eqn:Hk; simpl.
    + now rewrite text_eqb_refl.
    + now rewrite Hk.
Qed.

Lemma dict_get_set_other (k k0 v : text) (d : Ledger.dict) :
  k <> k0 -> Ledger.dict_get k (Ledger.dict_set k0 v d) = Ledger.dict_get k d.
Proof.
  intros Hne. apply text_eqb_neq in Hne.
  induction d as [|[k' v'] d IH]; simpl.
  - now rewrite Hne.
  - destruct (text_eqb k0 k') eqn:Hk; simpl.
    + apply text_eqb_eq in Hk. subst k'. now rewrite Hne.
    + now rewrite IH.
Qed.

Lemma load_sources_maps_app (l1 l2 : list Ledger.SourceItem)
  (maps : Ledger.dict * Ledger.dict) :
  Ledger.load_sources_maps (l1 ++ l2) maps
  = Ledger.load_sources_maps l2 (Ledger.load_sources_maps l1 maps).
Proof.
  revert maps. induction l1 as [|it l1 IH]; intros maps; simpl; [reflexivity|].
  destruct (Ledger.or_else (Ledger.key it) []); apply IH.
Qed.

Lemma or_else_key (it : Ledger.SourceItem) (k : text) :
  k <> [] ->
  (Ledger.or_else (Ledger.key it) [] = k <-> Ledger.key it = Some k).
Proof.
  intros Hne. unfold Ledger.or_else.
  destruct (Ledger.key it) as [[|c t]|]; simpl; split; intros H;
    try congruence.
Qed.

(** The items without the key [k] leave the entries of [k] alone. *)
Lemma load_sources_maps_other (k : text) (data : list Ledger.SourceItem) :
  forall maps,
    (forall it, In it data -> Ledger.key it <> Some k) -> k <> [] ->
    Ledger.dict_get k (fst (Ledger.load_sources_maps data maps))
    = Ledger.dict_get k (fst maps)
    /\ Ledger.dict_get k (snd (Ledger.load_sources_maps data maps))
       = Ledger.dict_get k (snd maps).
Proof.
  induction data as [|it data IH]; intros maps Hno Hne; simpl; [easy|].
  assert (Hit : Ledger.or_else (Ledger.key it) [] <> k).
  { intros H. apply (or_else_key it k Hne) in H.
    exact (Hno it (or_introl eq_refl) H). }
  assert (Hrest : forall it', In it' data -> Ledger.key it' <> Some k)
    by (intros it' H; apply Hno; now right).
  destruct (Ledger.or_else (Ledger.key it) []) as [|c k0] eqn:Hk.
  - now apply IH.
  - destruct (IH (Ledger.dict_set (c :: k0) (Ledger.apa it) (fst maps),
                  Ledger.dict_set (c :: k0)
                    (Ledger.or_else (Ledger.abstract it) []) (snd maps))
                Hrest Hne) as [H1 H2].
    rewrite H1, H2. simpl.
    rewrite !dict_get_set_other by congruence. easy.
Qed.

Lemma load_sources_maps_same_keys (data : list Ledger.SourceItem) :
  forall maps,
    (forall k, Ledger.dict_get k (fst maps) = None
               <-> Ledger.dict_get k (snd maps) = None) ->
    forall k,
      Ledger.dict_get k (fst (Ledger.load_sources_maps data maps)) = None
      <-> Ledger.dict_get k (snd (Ledger.load_sources_maps data maps)) = None.
Proof.
  induction data as [|it data IH]; intros maps H; simpl; [exact H|].
  destruct (Ledger.or_else (Ledger.key it) []) as [|c k0]; [now apply IH|].
  apply IH. intros k. simpl.
  destruct (list_eq_dec ascii_dec k (c :: k0)) as [-> | Hne].
  - rewrite !dict_get_set_same. split; discriminate.
  - rewrite !dict_get_set_other by exact Hne. apply H.
Qed.

(** X9.  The two maps built from the sources file have the same keys, and
    for a key the last item that carries it decides: its citation string is
    in the first map and its abstract, or the empty text when it has none,
    in the second. *)
Theorem last_source_item_wins (data : list Ledger.SourceItem) :
  (forall k,
      Ledger.dict_get k (fst (Ledger.load_sources_maps data ([], []))) = None
      <-> Ledger.dict_get k (snd (Ledger.load_sources_maps data ([], []))) = None)
  /\ forall before it after k,
       data = before ++ it :: after ->
       Ledger.key it = Some k -> k <> [] ->
       (forall it', In it' after -> Ledger.key it' <> Some k) ->
       Ledger.dict_get k (fst (Ledger.load_sources_maps data ([], [])))
       = Some (Ledger.apa it)
       /\ Ledger.dict_get k (snd (Ledger.load_sources_maps data ([], [])))
          = Some (Ledger.or_else (Ledger.abstract it) []).
Proof.
  split.
  - apply load_sources_maps_same_keys. intros k. simpl. tauto.
  - intros before it after k -> Hk Hne Hafter.
    rewrite load_sources_maps_app. simpl.
    assert (Hor : Ledger.or_else (Ledger.key it) [] = k)
      by now apply or_else_key.
    rewrite Hor. destruct k as [|c k]; [easy|].
    match goal with
    | |- context [Ledger.load_sources_maps after ?m] =>
        destruct (load_sources_maps_other (c :: k) after m Hafter Hne)
          as [-> ->]
    end.
    simpl. now rewrite !dict_get_set_same.
Qed.

Lemma last_source_item_wins_witness :
  Ledger.dict_get (str "S1")
    (snd (Ledger.load_sources_maps
            [Ledger.mkItem (Some (str "S1")) (Some (str "Old")) None None None
               (Some (str "First abstract."));
             Ledger.mkItem (Some (str "S1")) (Some (str "New")) None None None
               None;
             Ledger.mkItem None (Some (str "No key")) None None None None]
            ([], [])))
  = Some [].
Proof.
  apply (proj2 (last_source_item_wins _)
           [Ledger.mkItem (Some (str "S1")) (Some (str "Old")) None None None
              (Some (str "First abstract."))]
           (Ledger.mkItem (Some (str "S1")) (Some (str "New")) None None None
              None)
           [Ledger.mkItem None (Some (str "No key")) None None None None]
           (str "S1")).
  - reflexivity.
  - reflexivity.
  - discriminate.
  - intros it' [<- | []]. discriminate.
Defined.

(** ** Documents without citation *)

Lemma occurs_app_l (x a b : text) : occurs x a -> occurs x (a ++ b).
Proof.
  intros (pre & post & ->). exists pre, (post ++ b).
  now rewrite <- !app_assoc.
Qed.

Lemma occurs_app_r (x a b : text) : occurs x b -> occurs x (a ++ b).
Proof.
  intros (pre & post & ->). exists (a ++ pre), post.
  now rewrite <- !app_assoc.
Qed.

Lemma occurs_cons (x : text) (c : ascii) (b : text) :
  occurs x b -> occurs x (c :: b).
Proof. apply (occurs_app_r x [c] b). Qed.

(** A text without the character [c] that stands in [a ++ c :: b] stands in
    [a] or in [b]. *)
Lemma occurs_sep (x a b : text) (c : ascii) :
  ~ In c x -> occurs x (a ++ c :: b) -> occurs x a \/ occurs x b.
Proof.
  intros Hc (pre & post & H).
  apply app_eq_app in H. destruct H as (l & [[Ha Hx] | [Hp Hx]]).
  - left. apply app_eq_app in Hx. destruct Hx as (l' & [[Hx Hb] | [Hl Hb]]).
    + destruct l' as [|c' l'].
      * rewrite app_nil_r in Hx. subst. exists pre, []. now rewrite app_nil_r.
      * inversion Hb; subst. exfalso. apply Hc. apply in_or_app. right. now left.
    + subst. now exists pre, l'.
  - destruct l as [|c' l].
    + destruct x as [|c' x].
      * left. exists [], a. reflexivity.
      * inversion Hx; subst. exfalso. apply Hc. now left.
    + inversion Hx; subst. right. now exists l, post.
Qed.

Lemma occurs_join (x : text) (parts : list text) :
  x <> [] -> ~ In LF x -> occurs x (join [LF] parts) ->
  exists p, In p parts /\ occurs x p.
Proof.
  intros Hne Hlf. induction parts as [|p [|q parts] IH]; intros H.
  - destruct H as (pre & post & H). simpl in H.
    destruct pre; [destruct x; [easy | discriminate] | discriminate].
  - exists p. split; [now left | exact H].
  - change (join [LF] (p :: q :: parts))
      with (p ++ LF :: join [LF] (q :: parts)) in H.
    apply occurs_sep in H; [|exact Hlf]. destruct H as [H | H].
    + exists p. split; [now left | exact H].
    + destruct (IH H) as (p' & Hin & Ho). exists p'. split; [now right | exact Ho].
Qed.

Lemma dropwhile_suffix (p : ascii -> bool) (s : text) :
  exists w, s = w ++ dropwhile p s.
Proof.
  induction s as [|c s [w IH]]; simpl; [now exists []|].
  destruct (p c); [|now exists []].
  exists (c :: w). simpl. now rewrite <- IH.
Qed.

Lemma occurs_strip (x s : text) : occurs x (strip s) -> occurs x s.
Proof.
  unfold strip, lstrip, rstrip. intros H.
  destruct (dropwhile_suffix isspace s) as [w Hs].
  destruct (dropwhile_suffix isspace (rev (dropwhile isspace s))) as [z Hz].
  apply (f_equal (@rev ascii)) in Hz.
  rewrite rev_involutive, rev_app_distr in Hz.
  rewrite Hs. apply occurs_app_r. rewrite Hz. now apply occurs_app_l.
Qed.

(** Every line of [str.splitlines] is a piece of the text. *)
Lemma splitlines_from_occurs (ln : text) (s : text) :
  forall after_cr cur,
    (after_cr = true -> cur = []) ->
    In ln (splitlines_from after_cr cur s) -> occurs ln (rev cur ++ s).
Proof.
  induction s as [|c s IH]; intros b cur Hb Hin; simpl in Hin.
  - destruct cur; [easy|]. destruct Hin as [<- | []].
    exists [], []. now rewrite !app_nil_r.
  - destruct (b && (code c =? 10)) eqn:Hskip.
    + apply andb_prop in Hskip. destruct Hskip as [-> _].
      rewrite (Hb eq_refl) in *. simpl.
      apply occurs_cons. apply (IH false []); [discriminate | exact Hin].
    + destruct (islinebreak c).
      * destruct Hin as [<- | Hin].
        -- apply occurs_app_l. exists [], []. now rewrite app_nil_r.
        -- apply occurs_app_r, occurs_cons.
           apply (IH (code c =? 13) []); [reflexivity | exact Hin].
      * specialize (IH false (c :: cur) ltac:(discriminate) Hin).
        simpl in IH. now rewrite <- app_assoc in IH.
Qed.

Lemma splitlines_occurs (ln md : text) :
  In ln (splitlines md) -> occurs ln md.
Proof. apply (splitlines_from_occurs ln md false []). discriminate. Qed.

(** A yielded paragraph is made of lines of the buffer and of the lines to
    come. *)
Lemma run_lines_lines (sec para : text) (lines : list text) :
  forall st,
    In (sec, para) (Ledger.run_lines st lines) ->
    exists b, para = strip (join [LF] b)
              /\ forall ln, In ln b -> In ln (Ledger.buf st) \/ In ln lines.
Proof.
  assert (Hflush : forall st, In (sec, para) (Ledger.flush st) ->
            para = strip (join [LF] (Ledger.buf st))).
  { intros st. unfold Ledger.flush. destruct (Ledger.buf st); [easy|].
    destruct (truthy _); [|easy]. intros [H | []]. now inversion H. }
  induction lines as [|ln lines IH]; intros st Hin; simpl in Hin.
  - exists (Ledger.buf st). split; [now apply Hflush | auto].
  - apply in_app_or in Hin. destruct Hin as [Hin | Hin].
    + destruct (step_yields st ln) as [Hs | Hs]; rewrite Hs in Hin; [|easy].
      exists (Ledger.buf st). split; [now apply Hflush | auto].
    + destruct (IH _ Hin) as (b & Hp & Hb). exists b. split; [exact Hp|].
      intros l Hl. destruct (Hb l Hl) as [H | H]; [|right; now right].
      unfold Ledger.step in H.
      destruct (re_match Ledger.H1 ln); [easy|].
      destruct (re_match Ledger.H2 ln); [easy|].
      destruct (text_eqb (strip ln) []); [easy|]. simpl in H.
      apply in_app_or in H. destruct H as [H | [<- | []]];
        [now left | right; now left].
Qed.

(** A text without line feed that stands in a yielded paragraph stands in
    the document. *)
Lemma paragraph_token_in_document (md sec para x : text) :
  In (sec, para) (Ledger._iter_paragraphs md) ->
  x <> [] -> ~ In LF x -> occurs x para -> occurs x md.
Proof.
  intros Hin Hne Hlf Ho. unfold Ledger._iter_paragraphs in Hin.
  destruct (run_lines_lines _ _ _ _ Hin) as (b & -> & Hb).
  apply occurs_strip, occurs_join in Ho; [|exact Hne | exact Hlf].
  destruct Ho as (ln & Hl & Ho). destruct (Hb ln Hl) as [[] | H].
  apply splitlines_occurs in H. destruct H as (pre & post & ->).
  now apply occurs_app_r, occurs_app_l.
Qed.

Lemma token_without_line_feed (ds : text) :
  forallb isdecimal ds = true -> ~ In LF (bracketed ("S"%char :: ds)).
Proof.
  intros Hds. unfold bracketed. simpl.
  intros [H | [H | H]]; [discriminate H | discriminate H |].
  apply in_app_or in H. destruct H as [H | [H | []]]; [|discriminate H].
  rewrite forallb_forall in Hds. specialize (Hds _ H). discriminate Hds.
Qed.

(** X10.  A document in which no citation token stands gives no claim:
    logging it returns 0 and leaves the rows of the table as they were. *)
Theorem document_without_citation_logs_nothing (md : text) :
  re_search Workflow.CITATION md = false ->
  Ledger.extract_claims md = []
  /\ forall ratio db project data now,
       Ledger.log_claims_from_markdown ratio db project md data now
       = Some ([], 0, Ledger.ensure_schema db).
Proof.
  intros Hmd.
  assert (Hnone : Ledger.extract_claims md = []).
  { unfold Ledger.extract_claims.
    assert (H : forall sec para, In (sec, para) (Ledger._iter_paragraphs md) ->
                  Ledger.para_keys para = []).
    { intros sec para Hin. apply para_keys_nil_iff.
      destruct (re_search Ledger.SRC_KEYS para) eqn:Hs; [|reflexivity].
      apply search_citation_iff in Hs. destruct Hs as (ds & Hne & Hds & Ho).
      assert (Hfound : re_search Workflow.CITATION md = true).
      { apply search_citation_iff. exists ds. repeat split; auto.
        apply (paragraph_token_in_document md sec para); auto.
        - discriminate.
        - now apply token_without_line_feed. }
      congruence. }
    induction (Ledger._iter_paragraphs md) as [|[sec para] l IH];
      [reflexivity|]. simpl.
    rewrite (H sec para) by now left.
    apply IH. intros s p Hp. apply (H s p). now right. }
  split; [exact Hnone|].
  intros ratio db project data now.
  unfold Ledger.log_claims_from_markdown. now rewrite Hnone.
Qed.

Lemma document_without_citation_logs_nothing_witness :
  Ledger.extract_claims (str "# Intro
Neurons fire [S#].

No source [Sx] here.") = [].
Proof.
  refine (proj1 (document_without_citation_logs_nothing _ _)).
  vm_compute. reflexivity.
Defined.

(** ** Chunks *)

Lemma join_cons (sep x : text) (l : list text) :
  l <> [] -> join sep (x :: l) = x ++ sep ++ join sep l.
Proof. destruct l; [easy | reflexivity]. Qed.

(** Joining two neighbours first does not change the joined text. *)
Lemma join_merge (sep a b : text) (xs ys : list text) :
  join sep (xs ++ (a ++ sep ++ b) :: ys) = join sep (xs ++ a :: b :: ys).
Proof.
  induction xs as [|x xs IH].
  - simpl app. rewrite (join_cons sep a (b :: ys)) by discriminate.
    destruct ys as [|y ys]; [reflexivity|].
    rewrite !(join_cons sep _ (y :: ys)) by discriminate.
    now rewrite <- !app_assoc.
  - simpl app. rewrite !join_cons by (now destruct xs). now rewrite IH.
Qed.

Lemma split_paragraphs_truthy (t : text) :
  Forall (fun p => truthy p = true) (Services.split_paragraphs t).
Proof.
  apply Forall_forall. intros p Hp. unfold Services.split_paragraphs in Hp.
  now apply filter_In in Hp.
Qed.

Lemma truthy_app (a b : text) : truthy a = true -> truthy (a ++ b) = true.
Proof. now destruct a. Qed.

Lemma merge_paragraphs_join (max_chars : Z) (paras : list text) :
  forall chunks buf,
    Forall (fun p => truthy p = true) paras ->
    (truthy buf = false -> chunks = []) ->
    join [LF; LF] (finish (Services.merge_paragraphs max_chars chunks buf paras))
    = join [LF; LF] (finish (chunks, buf) ++ paras).
Proof.
  induction paras as [|p rest IH]; intros chunks buf Hp Hb; simpl.
  - now rewrite app_nil_r.
  - inversion Hp as [|? ? Hp1 Hp2]; subst.
    destruct (truthy buf) eqn:Hbuf; simpl negb; cbv iota.
    + destruct (_ <=? max_chars)%Z.
      * rewrite IH by (auto; intros H; now rewrite truthy_app in H).
        unfold finish. simpl fst. simpl snd.
        rewrite truthy_app by exact Hbuf. rewrite Hbuf.
        rewrite <- !app_assoc. exact (join_merge [LF; LF] buf p chunks rest).
      * rewrite IH by (auto; congruence).
        unfold finish. simpl fst. simpl snd. rewrite Hp1, Hbuf.
        now rewrite <- !app_assoc.
    + rewrite (Hb eq_refl). rewrite IH by (auto; congruence).
      unfold finish. simpl fst. simpl snd. now rewrite Hp1, Hbuf.
Qed.

(** X11.  Chunking loses nothing: the chunks joined by empty lines are the
    paragraphs of the text joined by empty lines, in their order. *)
Theorem chunks_rejoin_to_the_paragraphs (t : text) (max_chars : Z) :
  join [LF; LF] (Services.chunk_text t max_chars)
  = join [LF; LF] (Services.split_paragraphs t).
Proof.
  unfold Services.chunk_text. cbv zeta.
  change (join [LF; LF]
            (finish (Services.merge_paragraphs max_chars [] []
                       (Services.split_paragraphs t)))
          = join [LF; LF] (Services.split_paragraphs t)).
  rewrite merge_paragraphs_join; auto using split_paragraphs_truthy.
Qed.

Lemma merge_paragraphs_bound (max_chars : Z) (all : list text)
  (paras : list text) :
  forall chunks buf,
    let fits := fun c => c <> []
                         /\ ((Z.of_nat (List.length c) <= max_chars)%Z
                             \/ In c all) in
    Forall (fun p => truthy p = true) paras ->
    (forall p, In p paras -> In p all) ->
    Forall fits chunks -> (truthy buf = true -> fits buf) ->
    Forall fits
      (finish (Services.merge_paragraphs max_chars chunks buf paras)).
Proof.
  induction paras as [|p rest IH]; intros chunks buf fits Hp Hin Hc Hb; simpl.
  - unfold finish. simpl. destruct (truthy buf) eqn:Hbuf; [|exact Hc].
    apply Forall_app. split; [exact Hc | constructor; auto].
  - inversion Hp as [|? ? Hp1 Hp2]; subst.
    assert (Hfp : fits p).
    { split; [now destruct p | right; apply Hin; now left]. }
    assert (Hrest : forall q, In q rest -> In q all)
      by (intros q Hq; apply Hin; now right).
    destruct (truthy buf) eqn:Hbuf; simpl negb; cbv iota.
    + destruct (_ <=? max_chars)%Z eqn:Hfit.
      * apply IH; auto. intros _. split; [now destruct buf|]. left.
        apply Z.leb_le in Hfit. rewrite !List.length_app. simpl List.length.
        lia.
      * apply IH; auto. apply Forall_app. split; [exact Hc|].
        constructor; [exact (Hb eq_refl) | constructor].
    + apply IH; auto.
Qed.

Lemma merge_paragraphs_buffer (max_chars : Z) (paras : list text) :
  forall chunks buf,
    Forall (fun p => truthy p = true) paras ->
    truthy buf = true \/ paras <> [] ->
    truthy (snd (Services.merge_paragraphs max_chars chunks buf paras)) = true.
Proof.
  induction paras as [|p rest IH]; intros chunks buf Hp Hb; simpl.
  - now destruct Hb.
  - inversion Hp as [|? ? Hp1 Hp2]; subst.
    destruct (truthy buf) eqn:Hbuf; simpl negb; cbv iota.
    + destruct (_ <=? max_chars)%Z; apply IH; auto.
      left. now apply truthy_app.
    + apply IH; auto.
Qed.

(** X12.  No chunk is empty, and a chunk is longer than the limit only when
    it is a single paragraph; a text without paragraph, as the empty text,
    gives no chunk, and every other text gives one at least. *)
Theorem chunks_fit_or_are_single_paragraphs (t : text) (max_chars : Z) :
  Forall (fun c => c <> []
                   /\ ((Z.of_nat (List.length c) <= max_chars)%Z
                       \/ In c (Services.split_paragraphs t)))
    (Services.chunk_text t max_chars)
  /\ (Services.chunk_text t max_chars = []
      <-> Services.split_paragraphs t = []).
Proof.
  split.
  - apply (merge_paragraphs_bound max_chars (Services.split_paragraphs t));
      auto using split_paragraphs_truthy. discriminate.
  - unfold Services.chunk_text. cbv zeta.
    destruct (Services.split_paragraphs t) as [|p rest] eqn:Hs.
    + simpl. tauto.
    + rewrite merge_paragraphs_buffer.
      * split; [|discriminate]. intros H.
        now destruct (fst (Services.merge_paragraphs max_chars [] [] (p :: rest))).
      * rewrite <- Hs. apply split_paragraphs_truthy.
      * right. discriminate.
Qed.

(** ** Normalized texts *)

(** A greedy repetition with nothing behind it takes the whole run. *)
Lemma star_alone (p : ascii -> bool) (s : text) :
  forall prev,
    exists n, star p (fun _ _ => Some []) prev s = Some (n, [])
              /\ skipn n s = dropwhile p s.
Proof.
  induction s as [|c s IH]; intros prev; simpl.
  - now exists 0.
  - destruct (p c) eqn:Hc; [|now exists 0].
    destruct (IH (Some c)) as (n & -> & Hn). now exists (S n).
Qed.

(** The substitution of one space for every run of whitespace, step by
    step. *)
Lemma collapse_nil (prev : option ascii) :
  List.concat (map (piece_text (fun _ => [" "%char]))
                 (finditer Ledger.SPACES prev [])) = [].
Proof. now rewrite finditer_equation_1. Qed.

Lemma collapse_space (prev : option ascii) (c : ascii) (s : text) :
  isspace c = true ->
  exists prev',
    List.concat (map (piece_text (fun _ => [" "%char]))
                   (finditer Ledger.SPACES prev (c :: s)))
    = " "%char
        :: List.concat (map (piece_text (fun _ => [" "%char]))
                          (finditer Ledger.SPACES prev' (dropwhile isspace s))).
Proof.
  intros Hc. destruct (star_alone isspace s (Some c)) as (n & Hs & Hn).
  assert (Hm : rmatch Ledger.SPACES prev (c :: s) = Some [S n]).
  { unfold Ledger.SPACES. simpl. rewrite Hc. now rewrite Hs. }
  rewrite (finditer_hit _ _ _ _ _ n Hm) by (simpl; lia).
  rewrite Hn. now exists (Some (last (firstn n s) c)).
Qed.

Lemma collapse_char (prev : option ascii) (c : ascii) (s : text) :
  isspace c = false ->
  List.concat (map (piece_text (fun _ => [" "%char]))
                 (finditer Ledger.SPACES prev (c :: s)))
  = c :: List.concat (map (piece_text (fun _ => [" "%char]))
                        (finditer Ledger.SPACES (Some c) s)).
Proof.
  intros Hc.
  assert (Hm : rmatch Ledger.SPACES prev (c :: s) = None)
    by (unfold Ledger.SPACES; simpl; now rewrite Hc).
  now rewrite (finditer_miss _ _ _ _ Hm).
Qed.

Lemma dropwhile_length (p : ascii -> bool) (s : text) :
  List.length (dropwhile p s) <= List.length s.
Proof.
  induction s as [|c s IH]; simpl; [lia|]. destruct (p c); simpl; lia.
Qed.

Lemma collapse_single_spaced (n : nat) :
  forall s prev, List.length s < n ->
    single_spaced
      (List.concat (map (piece_text (fun _ => [" "%char]))
                      (finditer Ledger.SPACES prev s))) = true.
Proof.
  induction n as [|n IH]; intros s prev Hn; [lia|].
  destruct s as [|c s]; [now rewrite collapse_nil|].
  destruct (isspace c) eqn:Hc.
  - destruct (collapse_space prev c s Hc) as (q & ->).
    pose proof (dropwhile_length isspace s) as Hl. simpl in Hn.
    specialize (IH (dropwhile isspace s) q ltac:(lia)).
    simpl. rewrite IH, andb_true_r.
    destruct (dropwhile isspace s) as [|d s'] eqn:Hd.
    + now rewrite collapse_nil.
    + pose proof (dropwhile_head _ _ _ _ Hd) as Hsp.
      rewrite collapse_char by exact Hsp. now rewrite Hsp.
  - rewrite collapse_char by exact Hc. simpl. rewrite Hc.
    apply IH. simpl in Hn. lia.
Qed.

Lemma single_spaced_tail (c : ascii) (s : text) :
  single_spaced (c :: s) = true -> single_spaced s = true.
Proof. simpl. intros H. now apply andb_prop in H. Qed.

Lemma collapse_fixed (s : text) :
  forall prev, single_spaced s = true ->
    List.concat (map (piece_text (fun _ => [" "%char]))
                   (finditer Ledger.SPACES prev s)) = s.
Proof.
  induction s as [|c s IH]; intros prev H; [apply collapse_nil|].
  pose proof (single_spaced_tail _ _ H) as Ht.
  destruct (isspace c) eqn:Hc.
  - simpl in H. rewrite Hc in H. apply andb_prop in H. destruct H as [H _].
    apply andb_prop in H. destruct H as [Heq Hnext].
    apply Ascii.eqb_eq in Heq. subst c.
    destruct (collapse_space prev " "%char s Hc) as (q & ->).
    assert (Hd : dropwhile isspace s = s).
    { destruct s as [|d s']; [reflexivity|]. simpl.
      now destruct (isspace d). }
    rewrite Hd. now rewrite IH.
  - rewrite collapse_char by exact Hc. now rewrite IH.
Qed.

Lemma single_spaced_dropwhile (p : ascii -> bool) (s : text) :
  single_spaced s = true -> single_spaced (dropwhile p s) = true.
Proof.
  induction s as [|c s IH]; intros H; simpl; [reflexivity|].
  destruct (p c); [|exact H]. apply IH. now apply single_spaced_tail in H.
Qed.

Lemma single_spaced_prefix (a b : text) :
  single_spaced (a ++ b) = true -> single_spaced a = true.
Proof.
  induction a as [|c a IH]; intros H; [reflexivity|].
  simpl in H. apply andb_prop in H. destruct H as [Hc Ht].
  simpl. rewrite (IH Ht), andb_true_r.
  destruct (isspace c); [|reflexivity].
  apply andb_prop in Hc. destruct Hc as [-> Hn]. simpl.
  destruct a; [reflexivity | exact Hn].
Qed.

Lemma rstrip_prefix (s : text) : exists z, s = rstrip s ++ z.
Proof.
  unfold rstrip. destruct (dropwhile_suffix isspace (rev s)) as [w Hw].
  exists (rev w). apply (f_equal (@rev ascii)) in Hw.
  now rewrite rev_involutive, rev_app_distr in Hw.
Qed.

Lemma single_spaced_strip (s : text) :
  single_spaced s = true -> single_spaced (strip s) = true.
Proof.
  intros H. unfold strip, lstrip.
  apply (single_spaced_dropwhile isspace) in H.
  destruct (rstrip_prefix (dropwhile isspace s)) as [z Hz].
  rewrite Hz in H. now apply single_spaced_prefix in H.
Qed.

Lemma norm_single_spaced (s : text) : single_spaced (Ledger._norm s) = true.
Proof.
  unfold Ledger._norm, re_sub. apply single_spaced_strip.
  apply (collapse_single_spaced (S (List.length s))). lia.
Qed.

(** X13.  A normalized text has no whitespace at its ends, and its only
    whitespace characters are single spaces between two other characters;
    normalizing it again changes nothing. *)
Theorem norm_gives_single_spaced_text (s : text) :
  single_spaced (Ledger._norm s) = true
  /\ strip (Ledger._norm s) = Ledger._norm s
  /\ Ledger._norm (Ledger._norm s) = Ledger._norm s.
Proof.
  pose proof (norm_single_spaced s) as H.
  split; [exact H | split].
  - apply strip_idem.
  - unfold Ledger._norm at 1. unfold re_sub.
    rewrite (collapse_fixed _ None H). apply strip_idem.
Qed.

(** ** Linked and stripped tags *)

Lemma cited_key_of_hit (m : Match) (t : text) :
  In m (hits (finditer Workflow.CITATION None t)) ->
  span 1 3 m = "S"%char :: span 2 3 m
  /\ bracketed (span 1 3 m) = whole m
  /\ In (span 1 3 m) (cited_keys t).
Proof.
  intros Hin.
  destruct (citation_hit _ _ _ Hin) as (ds & _ & _ & Hw & Hl & _).
  destruct (span_digits _ _ Hw Hl) as [H23 H13].
  repeat split.
  - now rewrite H13, H23.
  - now rewrite H13, Hw.
  - unfold cited_keys, re_matches. apply in_map_iff. exists m.
    split; [now rewrite H13, H23 | exact Hin].
Qed.

(** X14.  Linking leaves alone the tags that have no address in the map, so
    that a text whose tags have none is unchanged, and it puts the address
    between parentheses behind every tag that has one. *)
Theorem linking_follows_the_map (t : text) (mapping : Ledger.dict) :
  ((forall k, In k (cited_keys t) ->
              Ledger.dict_get k mapping = None
              \/ Ledger.dict_get k mapping = Some []) ->
   Sources.link_sources_in_text t mapping = t)
  /\ forall k u,
       In k (cited_keys t) -> Ledger.dict_get k mapping = Some u -> u <> [] ->
       occurs (bracketed k ++ "("%char :: u ++ [")"%char])
         (Sources.link_sources_in_text t mapping).
Proof.
  unfold Sources.link_sources_in_text. split.
  - intros H. destruct mapping as [|kv mapping]; [reflexivity|].
    unfold re_sub.
    rewrite (sub_ext (Sources.link_repl (kv :: mapping)) whole);
      [apply pieces_reassemble|].
    intros m Hm. destruct (cited_key_of_hit m t Hm) as (_ & Hw & Hin).
    unfold Sources.link_repl. cbv zeta.
    destruct (H _ Hin) as [-> | ->]; exact Hw.
  - intros k u Hk Hget Hu.
    destruct mapping as [|kv mapping]; [discriminate Hget|].
    unfold cited_keys, re_matches in Hk. apply in_map_iff in Hk.
    destruct Hk as (m & Hkm & Hm).
    destruct (cited_key_of_hit m t Hm) as (H13 & _ & _).
    assert (Hrepl : Sources.link_repl (kv :: mapping) m
                    = bracketed k ++ "("%char :: u ++ [")"%char]).
    { unfold Sources.link_repl. cbv zeta. rewrite H13, Hkm, Hget.
      now destruct u. }
    apply hits_In, in_split in Hm. destruct Hm as (l1 & l2 & Hsplit).
    unfold re_sub. change Sources.TAG_PATTERN with Workflow.CITATION.
    rewrite Hsplit, map_app, concat_app. simpl. rewrite Hrepl.
    eexists _, _. reflexivity.
Qed.

Lemma linking_follows_the_map_witness :
  occurs (bracketed (str "S1") ++ "("%char :: str "http://x" ++ [")"%char])
    (Sources.link_sources_in_text (str "Sleep [S1] aids memory [S2].")
       [(str "S1", str "http://x")]).
Proof.
  apply (proj2 (linking_follows_the_map (str "Sleep [S1] aids memory [S2].")
                  [(str "S1", str "http://x")])).
  - vm_compute. left. reflexivity.
  - reflexivity.
  - discriminate.
Defined.

Lemma split_from_skip (s : text) :
  Sources.split_from [] s = Sources.split_from [] (dropwhile isspace s).
Proof.
  induction s as [|c s IH]; simpl; [reflexivity|].
  destruct (isspace c) eqn:Hc; [exact IH|]. simpl. now rewrite Hc.
Qed.

Lemma split_from_nonempty (s : text) :
  forall cur, cur <> [] -> Sources.split_from cur s <> [].
Proof.
  induction s as [|c s IH]; intros cur Hc; simpl.
  - now destruct cur.
  - destruct (isspace c); [now destruct cur|]. now apply IH.
Qed.

Lemma dropwhile_app_keep (p : ascii -> bool) (l l' : text) :
  dropwhile p l <> [] -> dropwhile p (l ++ l') = dropwhile p l ++ l'.
Proof.
  induction l as [|a l IH]; simpl; [easy|].
  destruct (p a); [exact IH | reflexivity].
Qed.

Lemma rstrip_cons_keep (c : ascii) (s : text) :
  rstrip s <> [] -> rstrip (c :: s) = c :: rstrip s.
Proof.
  unfold rstrip. intros H. simpl.
  rewrite dropwhile_app_keep.
  - now rewrite rev_app_distr.
  - intros E. rewrite E in H. now apply H.
Qed.

(** The words of a text joined by single spaces, with a word begun. *)
Lemma join_split_from (n : nat) :
  forall s cur prev, List.length s < n -> cur <> [] ->
    join [" "%char] (Sources.split_from cur s)
    = rev cur
        ++ rstrip (List.concat (map (piece_text (fun _ => [" "%char]))
                                  (finditer Ledger.SPACES prev s))).
Proof.
  induction n as [|n IH]; intros s cur prev Hn Hcur; [lia|].
  destruct s as [|c s].
  - rewrite collapse_nil. simpl. destruct cur; [easy|].
    now rewrite app_nil_r.
  - simpl in Hn. simpl Sources.split_from. destruct (isspace c) eqn:Hc.
    + destruct (collapse_space prev c s Hc) as (q & ->).
      destruct cur as [|a cur]; [easy|]. rewrite split_from_skip.
      pose proof (dropwhile_length isspace s) as Hl.
      destruct (dropwhile isspace s) as [|d s3] eqn:Hd.
      * rewrite collapse_nil. simpl Sources.split_from.
        change (rstrip [" "%char]) with (@nil ascii).
        now rewrite app_nil_r.
      * pose proof (dropwhile_head _ _ _ _ Hd) as Hsp.
        simpl Sources.split_from. rewrite Hsp.
        rewrite join_cons by (apply split_from_nonempty; discriminate).
        simpl in Hl.
        rewrite (IH s3 [d] (Some d)) by (try lia; discriminate).
        rewrite collapse_char by exact Hsp.
        rewrite (rstrip_cons_keep " "%char)
          by (rewrite rstrip_cons by exact Hsp; discriminate).
        rewrite rstrip_cons by exact Hsp. reflexivity.
    + rewrite (IH s (c :: cur) (Some c)) by (try lia; discriminate).
      rewrite collapse_char by exact Hc. rewrite rstrip_cons by exact Hc.
      simpl. now rewrite <- app_assoc.
Qed.

Lemma join_split_is_norm (t : text) :
  join [" "%char] (Sources.split t) = Ledger._norm t.
Proof.
  unfold Sources.split, Ledger._norm, re_sub.
  destruct t as [|c s]; [now rewrite collapse_nil|].
  destruct (isspace c) eqn:Hc.
  - destruct (collapse_space None c s Hc) as (q & ->).
    rewrite split_from_skip. simpl dropwhile. rewrite Hc.
    unfold strip, lstrip. simpl dropwhile.
    destruct (dropwhile isspace s) as [|d s3] eqn:Hd.
    + now rewrite collapse_nil.
    + pose proof (dropwhile_head _ _ _ _ Hd) as Hsp.
      rewrite collapse_char by exact Hsp. simpl dropwhile. rewrite Hsp.
      simpl Sources.split_from. rewrite Hsp.
      rewrite (join_split_from (S (List.length s3)) s3 [d] (Some d))
        by (try lia; discriminate).
      now rewrite rstrip_cons by exact Hsp.
  - simpl Sources.split_from. rewrite Hc.
    rewrite (join_split_from (S (List.length s)) s [c] (Some c))
      by (try lia; discriminate).
    rewrite collapse_char by exact Hc. now rewrite strip_cons by exact Hc.
Qed.

(** X15.  The whitespace pass that ends the stripping of tags is the
    normalization of the ledger: the words joined by single spaces are the
    normalized text, so that a text stripped of its tags is single-spaced
    and has no whitespace at its ends. *)
Theorem stripping_ends_with_normalization (t : text) :
  join [" "%char] (Sources.split t) = Ledger._norm t
  /\ single_spaced (Sources.strip_sources_in_text t) = true
  /\ strip (Sources.strip_sources_in_text t) = Sources.strip_sources_in_text t.
Proof.
  split; [apply join_split_is_norm|].
  unfold Sources.strip_sources_in_text. cbv zeta.
  rewrite join_split_is_norm.
  split; [apply norm_single_spaced | apply strip_idem].
Qed.

(** ** Nested values *)

Section ValueInduction.

Variable P : Sources.value -> Prop.

Hypothesis P_str : forall s, P (Sources.VStr s).
Hypothesis P_dict :
  forall items, Forall (fun kv => P (snd kv)) items -> P (Sources.VDict items).
Hypothesis P_list : forall items, Forall P items -> P (Sources.VList items).
Hypothesis P_tuple : forall items, Forall P items -> P (Sources.VTuple items).
Hypothesis P_none : P Sources.VNone.
Hypothesis P_int : forall n, P (Sources.VInt n).

Fixpoint value_induction (v : Sources.value) : P v :=
  match v with
  | Sources.VStr s => P_str s
  | Sources.VDict items =>
      P_dict items
        ((fix each (l : list (text * Sources.value))
            : Forall (fun kv => P (snd kv)) l :=
            match l with
            | [] => Forall_nil _
            | (k, x) :: l' => Forall_cons (k, x) (value_induction x) (each l')
            end) items)
  | Sources.VList items =>
      P_list items
        ((fix each (l : list Sources.value) : Forall P l :=
            match l with
            | [] => Forall_nil _
            | x :: l' => Forall_cons x (value_induction x) (each l')
            end) items)
  | Sources.VTuple items =>
      P_tuple items
        ((fix each (l : list Sources.value) : Forall P l :=
            match l with
            | [] => Forall_nil _
            | x :: l' => Forall_cons x (value_induction x) (each l')
            end) items)
  | Sources.VNone => P_none
  | Sources.VInt n => P_int n
  end.

End ValueInduction.

Lemma map_ext_Forall {A B : Type} (f g : A -> B) (l : list A) :
  Forall (fun x => f x = g x) l -> map f l = map g l.
Proof. induction 1; simpl; congruence. Qed.

(** X16.  The walk through a nested value composes: walking with one
    function and then with another is walking once with the two in a row,
    and walking with the identity gives the value back; stripping after
    linking is one walk with the two functions of texts. *)
Theorem transform_any_composes (obj : Sources.value) :
  (forall f g,
      Sources._transform_any f (Sources._transform_any g obj)
      = Sources._transform_any (fun s => f (g s)) obj)
  /\ Sources._transform_any (fun s => s) obj = obj
  /\ forall mapping,
       Sources.strip_sources (Sources.link_sources obj mapping)
       = Sources._transform_any
           (fun s => Sources.strip_sources_in_text
                       (Sources.link_sources_in_text s mapping)) obj.
Proof.
  assert (Hc : forall f g,
             Sources._transform_any f (Sources._transform_any g obj)
             = Sources._transform_any (fun s => f (g s)) obj).
  { intros f g.
    induction obj as [s | items IH | items IH | items IH | | n]
      using value_induction; simpl; try reflexivity.
    - f_equal. rewrite map_map. apply map_ext_Forall.
      apply Forall_forall. intros [k v] Hin. rewrite Forall_forall in IH.
      f_equal. exact (IH (k, v) Hin).
    - f_equal. rewrite map_map. now apply map_ext_Forall.
    - f_equal. rewrite map_map. now apply map_ext_Forall. }
  split; [exact Hc | split].
  - clear Hc.
    induction obj as [s | items IH | items IH | items IH | | n]
      using value_induction; simpl; try reflexivity.
    + f_equal. rewrite <- (map_id items) at 2. apply map_ext_Forall.
      apply Forall_forall. intros [k v] Hin. rewrite Forall_forall in IH.
      f_equal. exact (IH (k, v) Hin).
    + f_equal. rewrite <- (map_id items) at 2. now apply map_ext_Forall.
    + f_equal. rewrite <- (map_id items) at 2. now apply map_ext_Forall.
  - intros mapping. apply Hc.
Qed.

(** ** Citation strings *)

(** X17.  For a source with a title, the citation string that the ledger
    stores is the one that [apa_citation] writes. *)
Theorem ledger_citation_is_apa_citation (s : Tools.Source) :
  Tools.title s <> [] ->
  Ledger.apa (Tools.to_item s) = Tools.apa_citation s.
Proof.
  intros Ht. unfold Ledger.apa, Tools.apa_citation, Tools.to_item. simpl.
  destruct (Tools.title s) as [|c t] eqn:Htitle; [easy|]. simpl.
  destruct (Tools.year s) as [[|y]|]; destruct (Tools.doi s) as [[|d ds]|];
    destruct (Tools.url s) as [|u us]; simpl;
    rewrite <- ?app_assoc; simpl; rewrite ?app_nil_r;
    rewrite <- ?app_assoc; reflexivity.
Qed.

Lemma ledger_citation_is_apa_citation_witness :
  Ledger.apa (Tools.to_item
                (Tools.mkSource (str "S1") (str "Sleep and memory")
                   (str "https://europepmc.org/article/MED/1")
                   (Some (str "10.1/x")) (Some 2020) true None))
  = str "(2020) Sleep and memory. https://doi.org/10.1/x".
Proof.
  rewrite ledger_citation_is_apa_citation by discriminate.
  vm_compute. reflexivity.
Defined.

(** ** Paragraph breaks *)

Lemma break_unfold (prev : option ascii) (x : ascii) (s : text) :
  rmatch Workflow.PARAGRAPH_BREAK prev (x :: s)
  = if Ascii.eqb x LF
    then option_map (cons 1)
           (push (star isspace (rmatch [Plus (Ascii.eqb LF)]) (Some x) s))
    else None.
Proof. reflexivity. Qed.

Lemma line_feeds_unfold (prev : option ascii) (s : text) :
  rmatch [Plus (Ascii.eqb LF)] prev s
  = match s with
    | x :: s' =>
        if Ascii.eqb LF x then
          match star (Ascii.eqb LF) (fun _ _ => Some []) (Some x) s' with
          | Some (n, ls) => Some (S n :: ls)
          | None => None
          end
        else None
    | [] => None
    end.
Proof. destruct s; reflexivity. Qed.

Lemma line_feeds_other (prev : option ascii) (c : ascii) (s : text) :
  c <> LF -> rmatch [Plus (Ascii.eqb LF)] prev (c :: s) = None.
Proof.
  intros Hc. rewrite line_feeds_unfold.
  destruct (Ascii.eqb LF c) eqn:E; [|reflexivity].
  apply Ascii.eqb_eq in E. congruence.
Qed.

Lemma line_feeds_found (prev : option ascii) (s : text) :
  rmatch [Plus (Ascii.eqb LF)] prev (LF :: s) <> None.
Proof.
  rewrite line_feeds_unfold. rewrite Ascii.eqb_refl.
  destruct (star_alone (Ascii.eqb LF) s (Some LF)) as (n & -> & _).
  discriminate.
Qed.

Lemma isspace_LF : isspace LF = true.
Proof. reflexivity. Qed.

(** The repetition of whitespace before the line feeds fails exactly when
    the whitespace that opens the text holds no line feed. *)
Lemma star_break_none (s : text) :
  forall prev,
    star isspace (rmatch [Plus (Ascii.eqb LF)]) prev s = None
    <-> ~ In LF (takewhile isspace s).
Proof.
  induction s as [|c s IH]; intros prev; cbn [star takewhile].
  - rewrite line_feeds_unfold. simpl. tauto.
  - destruct (isspace c) eqn:Hc.
    + specialize (IH (Some c)).
      destruct (star isspace _ (Some c) s) as [[n ls]|] eqn:Hs.
      * split; [discriminate|]. intros H. exfalso.
        assert (Hn : ~ In LF (takewhile isspace s))
          by (intros Hin; apply H; now right).
        apply IH in Hn. discriminate.
      * destruct (Ascii.eqb c LF) eqn:E.
        -- apply Ascii.eqb_eq in E. subst c.
           pose proof (line_feeds_found prev s) as Hf.
           destruct (rmatch [Plus (Ascii.eqb LF)] prev (LF :: s)); [|easy].
           simpl. split; [discriminate|]. intros H. exfalso. apply H. now left.
        -- apply Ascii.eqb_neq in E. rewrite line_feeds_other by exact E.
           simpl. split; [|reflexivity]. intros _ [H | H]; [congruence|].
           now apply (proj1 IH).
    + assert (E : c <> LF) by (intros ->; now rewrite isspace_LF in Hc).
      rewrite line_feeds_other by exact E. simpl. tauto.
Qed.

Lemma break_other (prev : option ascii) (c : ascii) (s : text) :
  c <> LF -> rmatch Workflow.PARAGRAPH_BREAK prev (c :: s) = None.
Proof.
  intros Hc. rewrite break_unfold.
  destruct (Ascii.eqb c LF) eqn:E; [|reflexivity].
  apply Ascii.eqb_eq in E. congruence.
Qed.

(** No break begins on a line feed when the whitespace behind it holds no
    other line feed, and only then. *)
Lemma break_none_iff (prev : option ascii) (s : text) :
  rmatch Workflow.PARAGRAPH_BREAK prev (LF :: s) = None
  <-> ~ In LF (takewhile isspace s).
Proof.
  rewrite break_unfold, Ascii.eqb_refl, <- (star_break_none s (Some LF)).
  destruct (star isspace _ (Some LF) s) as [[n ls]|]; simpl;
    split; intros H; try reflexivity; discriminate.
Qed.

(** What the repetition of whitespace and the line feeds consume: whitespace
    only, up to the last line feed of the whitespace that opens the text. *)
Lemma star_break_some (s : text) :
  forall prev n ls,
    star isspace (rmatch [Plus (Ascii.eqb LF)]) prev s = Some (n, ls) ->
    exists m,
      ls = [S m]
      /\ forallb isspace (firstn (n + S m) s) = true
      /\ n + S m <= List.length s
      /\ ~ In LF (takewhile isspace (skipn (n + S m) s)).
Proof.
  induction s as [|c s IH]; intros prev n ls H; cbn [star] in H.
  - rewrite line_feeds_unfold in H. discriminate.
  - destruct (isspace c) eqn:Hc.
    + destruct (star isspace _ (Some c) s) as [[n' ls']|] eqn:Hs.
      * inversion H; subst. destruct (IH _ _ _ Hs) as (m & -> & Hw & Hl & Hn).
        exists m. repeat split; auto.
        -- simpl. now rewrite Hc.
        -- simpl. lia.
      * apply star_break_none in Hs.
        destruct (Ascii.eqb c LF) eqn:E.
        -- apply Ascii.eqb_eq in E. subst c.
           rewrite line_feeds_unfold, Ascii.eqb_refl in H.
           assert (Hm : star (Ascii.eqb LF) (fun _ _ => Some []) (Some LF) s
                        = Some (0, [])).
           { destruct s as [|d s']; [reflexivity|]. cbn [star].
             destruct (Ascii.eqb LF d) eqn:Ed; [|reflexivity].
             apply Ascii.eqb_eq in Ed. subst d. exfalso. apply Hs.
             cbn [takewhile]. rewrite isspace_LF. now left. }
           rewrite Hm in H. simpl in H. inversion H; subst.
           exists 0. repeat split; auto. simpl. lia.
        -- apply Ascii.eqb_neq in E.
           rewrite line_feeds_other in H by exact E. discriminate.
    + assert (E : c <> LF) by (intros ->; now rewrite isspace_LF in Hc).
      rewrite line_feeds_other in H by exact E. discriminate.
Qed.

(** A break is a line feed and whitespace; behind it the whitespace that
    opens the rest of the text holds no line feed. *)
Lemma break_shape (prev : option ascii) (s : text) (lens : list nat) :
  rmatch Workflow.PARAGRAPH_BREAK prev s = Some lens ->
  exists s' n,
    s = LF :: s' /\ list_sum lens = S n
    /\ forallb isspace (firstn n s') = true /\ n <= List.length s'
    /\ ~ In LF (takewhile isspace (skipn n s')).
Proof.
  destruct s as [|x s]; [discriminate|]. rewrite break_unfold.
  destruct (Ascii.eqb x LF) eqn:E; [|discriminate].
  apply Ascii.eqb_eq in E. subst x.
  destruct (star isspace _ (Some LF) s) as [[n ls]|] eqn:Hs; [|discriminate].
  destruct (star_break_some _ _ _ _ Hs) as (m & -> & Hw & Hl & Hn).
  simpl. intros H. inversion H; subst lens.
  exists s, (n + S m). repeat split; auto. simpl. lia.
Qed.

Lemma takewhile_app_stop (b ctx : text) :
  existsb nonspace b = true ->
  takewhile isspace (b ++ ctx) = takewhile isspace b.
Proof.
  induction b as [|c b IH]; simpl; [discriminate|].
  unfold nonspace at 1. destruct (isspace c); simpl; [|reflexivity].
  intros H. now rewrite IH.
Qed.

Lemma takewhile_app_all (b ctx : text) :
  existsb nonspace b = false ->
  takewhile isspace (b ++ ctx) = b ++ takewhile isspace ctx.
Proof.
  induction b as [|c b IH]; simpl; [reflexivity|].
  unfold nonspace at 1. destruct (isspace c); simpl; [|discriminate].
  intros H. now rewrite IH.
Qed.

(** When the whitespace that opens [b ++ LF :: x] holds no line feed, it
    ends inside [b]. *)
Lemma run_reaches (b x : text) :
  ~ In LF (takewhile isspace (b ++ LF :: x)) ->
  existsb nonspace b = true /\ ~ In LF (takewhile isspace b).
Proof.
  intros H. destruct (existsb nonspace b) eqn:Hb.
  - split; [reflexivity|]. now rewrite takewhile_app_stop in H.
  - exfalso. apply H. rewrite takewhile_app_all by exact Hb.
    apply in_or_app. right. cbn [takewhile]. rewrite isspace_LF. now left.
Qed.

Lemma run_swap (x z tail : text) :
  ~ In LF (takewhile isspace (x ++ z)) ->
  ~ In LF (takewhile isspace tail) ->
  ~ In LF (takewhile isspace (x ++ tail)).
Proof.
  intros Hz Ht. destruct (existsb nonspace x) eqn:Hx.
  - rewrite takewhile_app_stop in * by exact Hx. exact Hz.
  - rewrite takewhile_app_all in * by exact Hx. intros H.
    apply in_app_or in H. destruct H as [H | H]; [|now apply Ht].
    apply Hz. apply in_or_app. now left.
Qed.

Lemma snoc_split (l a b : text) (c x : ascii) :
  l ++ [c] = a ++ x :: b ->
  (b = [] /\ l = a /\ c = x) \/ exists b0, b = b0 ++ [c] /\ l = a ++ x :: b0.
Proof.
  intros H. destruct (rev b) as [|d rb] eqn:Hr.
  - apply (f_equal (@rev ascii)) in Hr. rewrite rev_involutive in Hr.
    simpl in Hr. subst b. left.
    apply app_inj_tail in H. destruct H as [-> ->]. auto.
  - apply (f_equal (@rev ascii)) in Hr. rewrite rev_involutive in Hr.
    simpl in Hr. subst b. right. exists (rev rb).
    change (l ++ [c] = a ++ (x :: rev rb) ++ [d]) in H.
    rewrite app_assoc in H. apply app_inj_tail in H.
    destruct H as [-> ->]. auto.
Qed.

Lemma ends_nonspace_exists (s : text) :
  ends_nonspace s -> existsb nonspace s = true.
Proof.
  intros (a & d & -> & Hd). rewrite existsb_app. simpl.
  unfold nonspace. rewrite Hd. simpl. now rewrite orb_true_r.
Qed.

Lemma ends_nonspace_after (a b : text) (c : ascii) :
  isspace c = true -> ends_nonspace (a ++ c :: b) -> ends_nonspace b.
Proof.
  intros Hc (x & d & H & Hd).
  destruct (rev b) as [|e rb] eqn:Hr;
    apply (f_equal (@rev ascii)) in Hr; rewrite rev_involutive in Hr;
    simpl in Hr; subst b.
  - change (a ++ [c] = x ++ [d]) in H. apply app_inj_tail in H.
    destruct H as [_ ->]. congruence.
  - exists (rev rb), e. split; [reflexivity|].
    change (a ++ (c :: rev rb) ++ [e] = x ++ [d]) in H.
    rewrite app_assoc in H. apply app_inj_tail in H.
    destruct H as [_ ->]. exact Hd.
Qed.

Lemma ends_nonspace_skipn (n : nat) :
  forall s, ends_nonspace s -> forallb isspace (firstn n s) = true ->
            ends_nonspace (skipn n s).
Proof.
  induction n as [|n IH]; intros s Hs Hw; [exact Hs|].
  destruct s as [|c s].
  - destruct Hs as (a & d & H & _). now destruct a.
  - simpl in Hw. apply andb_prop in Hw. destruct Hw as [Hc Hw]. simpl.
    apply IH; [|exact Hw]. exact (ends_nonspace_after [] s c Hc Hs).
Qed.

Lemma break_prev (p q : option ascii) (s : text) :
  rmatch Workflow.PARAGRAPH_BREAK p s = rmatch Workflow.PARAGRAPH_BREAK q s.
Proof. destruct s; reflexivity. Qed.

(** The pieces of a split: with [pre] the part of the current piece already
    passed, every piece is quiet and well led, the first one begins with
    [pre] and the last one ends the text. *)
Lemma split_quiet (n : nat) :
  forall s prev pre,
    List.length s < n ->
    ends_nonspace (pre ++ s) ->
    (forall a b, pre = a ++ LF :: b ->
                 ~ In LF (takewhile isspace (b ++ s))) ->
    ~ In LF (takewhile isspace (pre ++ s)) ->
    exists u rest,
      split_pieces (rev pre) (finditer Workflow.PARAGRAPH_BREAK prev s)
      = (pre ++ u) :: rest
      /\ Forall (fun p => quiet p /\ lead p) ((pre ++ u) :: rest)
      /\ ends_nonspace (last ((pre ++ u) :: rest) []).
Proof.
  induction n as [|n IH]; intros s prev pre Hn Hend Hq Hl; [lia|].
  destruct s as [|c s].
  - rewrite finditer_equation_1, app_nil_r in *. simpl.
    rewrite rev_involutive. exists [], []. rewrite app_nil_r.
    split; [reflexivity|]. split; [|exact Hend].
    constructor; [|constructor]. split.
    + intros a b Hab. specialize (Hq a b Hab). rewrite app_nil_r in Hq.
      split; [exact Hq|]. subst pre.
      apply ends_nonspace_exists.
      exact (ends_nonspace_after a b LF isspace_LF Hend).
    + split; [exact Hl | now apply ends_nonspace_exists].
  - simpl in Hn.
    destruct (rmatch Workflow.PARAGRAPH_BREAK prev (c :: s)) as [lens|] eqn:Hm.
    + destruct (break_shape _ _ _ Hm) as (s' & k & Hs & Hsum & Hw & Hk & Hrun).
      inversion Hs; subst c s'. clear Hs.
      rewrite (finditer_hit _ _ _ _ _ _ Hm Hsum). simpl split_pieces.
      rewrite rev_involutive.
      assert (Hend' : ends_nonspace (skipn k s)).
      { apply ends_nonspace_skipn; [|exact Hw].
        exact (ends_nonspace_after pre s LF isspace_LF Hend). }
      pose proof (List.length_skipn k s) as Hlen.
      destruct (IH (skipn k s) (Some (last (firstn k s) LF)) [])
        as (u & rest & Hsplit & Hall & Hlast); auto; try lia.
      { intros a b Hab. now destruct a. }
      simpl in Hsplit. rewrite Hsplit.
      exists [], (u :: rest). rewrite app_nil_r.
      split; [reflexivity|]. split; [|exact Hlast].
      constructor; [|exact Hall]. split.
      * intros a b Hab. specialize (Hq a b Hab).
        destruct (run_reaches b s Hq) as [Hb Hnb]. now split.
      * destruct (run_reaches pre s Hl) as [Hb Hnb]. now split.
    + rewrite (finditer_miss _ _ _ _ Hm). simpl split_pieces.
      change (c :: rev pre) with (rev [c] ++ rev pre).
      rewrite <- rev_app_distr.
      destruct (IH s (Some c) (pre ++ [c])) as (u & rest & Hsplit & Hall & Hlast);
        try lia.
      * now rewrite <- app_assoc.
      * intros a b Hab. apply snoc_split in Hab.
        destruct Hab as [(-> & -> & ->) | (b0 & -> & ->)].
        -- simpl. now apply (break_none_iff prev s).
        -- rewrite <- app_assoc. now apply (Hq a b0).
      * now rewrite <- app_assoc.
      * rewrite <- app_assoc in Hsplit, Hall, Hlast. simpl app in *.
        exists (c :: u), rest. now rewrite Hsplit.
Qed.

(** What the enforcement puts behind a paragraph without citation. *)
Lemma key_tail_plain (k : text) :
  is_key k = true ->
  ~ In LF (" "%char :: bracketed k)
  /\ ~ In LF (takewhile isspace (" "%char :: bracketed k))
  /\ existsb nonspace (" "%char :: bracketed k) = true
  /\ ends_nonspace (" "%char :: bracketed k).
Proof.
  intros Hk. destruct (is_key_shape _ Hk) as (ds & _ & Hds & ->).
  assert (Hno : ~ In LF (" "%char :: bracketed ("S"%char :: ds))).
  { intros [H | H]; [discriminate H|].
    now apply (token_without_line_feed ds Hds). }
  split; [|split; [|split]].
  - exact Hno.
  - simpl. intros [H | []]. discriminate H.
  - reflexivity.
  - exists (" "%char :: "["%char :: "S"%char :: ds), "]"%char.
    split; reflexivity.
Qed.

Lemma app_split_before (x y a b : text) (c : ascii) :
  x ++ y = a ++ c :: b -> ~ In c y ->
  exists b0, x = a ++ c :: b0 /\ b = b0 ++ y.
Proof.
  intros H Hc. apply app_eq_app in H.
  destruct H as (l & [[Hx Hy] | [Ha Hy]]).
  - destruct l as [|c' l].
    + exfalso. apply Hc. simpl in Hy. rewrite <- Hy. now left.
    + inversion Hy; subst. exists l. now rewrite app_nil_r || auto.
  - exfalso. apply Hc. rewrite Hy. apply in_or_app. right. now left.
Qed.

(** The paragraph with the bracketed key behind it is as quiet and as well
    led as the paragraph. *)
Lemma repaired_paragraph (k p : text) :
  is_key k = true -> quiet p -> lead p ->
  quiet (rstrip p ++ " "%char :: bracketed k)
  /\ lead (rstrip p ++ " "%char :: bracketed k).
Proof.
  intros Hk Hq [Hl _].
  destruct (key_tail_plain k Hk) as (Hno & Hrun & Hex & _).
  destruct (rstrip_prefix p) as [z Hz]. split.
  - intros a b Hab.
    apply app_split_before in Hab; [|exact Hno].
    destruct Hab as (b0 & Hr & ->).
    assert (Hp : p = a ++ LF :: (b0 ++ z))
      by (rewrite Hz at 1; rewrite Hr, <- app_assoc; reflexivity).
    destruct (Hq _ _ Hp) as [Hb _]. split.
    + exact (run_swap b0 z _ Hb Hrun).
    + rewrite existsb_app, Hex. apply orb_true_r.
  - split.
    + rewrite Hz in Hl. exact (run_swap (rstrip p) z _ Hl Hrun).
    + rewrite existsb_app, Hex. apply orb_true_r.
Qed.

Lemma split_pieces_lits (f : text) :
  forall ctx prev cur,
    quiet f ->
    split_pieces cur (finditer Workflow.PARAGRAPH_BREAK prev (f ++ ctx))
    = split_pieces (rev f ++ cur)
        (finditer Workflow.PARAGRAPH_BREAK None ctx).
Proof.
  induction f as [|c f IH]; intros ctx prev cur Hq.
  - simpl. now rewrite (finditer_prev _ prev None ctx (break_prev _ _)).
  - assert (Hm : rmatch Workflow.PARAGRAPH_BREAK prev (c :: f ++ ctx) = None).
    { destruct (Ascii.eqb c LF) eqn:E.
      - apply Ascii.eqb_eq in E. subst c. apply break_none_iff.
        destruct (Hq [] f eq_refl) as [Hn He].
        now rewrite takewhile_app_stop.
      - apply Ascii.eqb_neq in E. now apply break_other. }
    rewrite <- app_comm_cons, (finditer_miss _ _ _ _ Hm). simpl split_pieces.
    rewrite IH.
    + simpl rev. now rewrite <- app_assoc.
    + intros a b Hab. apply (Hq (c :: a) b). now rewrite Hab.
Qed.

(** Between two paragraphs the break is the two line feeds of the join. *)
Lemma split_pieces_join_break (x : text) (cur : text) :
  ~ In LF (takewhile isspace x) -> existsb nonspace x = true ->
  split_pieces cur (finditer Workflow.PARAGRAPH_BREAK None (LF :: LF :: x))
  = rev cur :: split_pieces [] (finditer Workflow.PARAGRAPH_BREAK
                                  (Some LF) x).
Proof.
  intros Hn He.
  assert (Hm : rmatch Workflow.PARAGRAPH_BREAK None (LF :: LF :: x)
               = Some [1; 0; 1]).
  { rewrite break_unfold, Ascii.eqb_refl. cbn [star]. rewrite isspace_LF.
    pose proof (proj2 (star_break_none x (Some LF)) Hn) as ->.
    rewrite line_feeds_unfold, Ascii.eqb_refl.
    destruct x as [|d x]; [discriminate He|]. cbn [star].
    destruct (Ascii.eqb LF d) eqn:E; [|reflexivity].
    apply Ascii.eqb_eq in E. subst d. exfalso. apply Hn.
    cbn [takewhile]. rewrite isspace_LF. now left. }
  now rewrite (finditer_hit _ _ _ _ _ 1 Hm).
Qed.

Lemma join_head (sep f : text) (l : list text) :
  exists ctx, join sep (f :: l) = f ++ ctx.
Proof.
  destruct l as [|g l]; [exists []; simpl; now rewrite app_nil_r|].
  now exists (sep ++ join sep (g :: l)).
Qed.

Lemma join_last (sep : text) (l : list text) (f : text) :
  exists a, join sep (f :: l) = a ++ last (f :: l) [].
Proof.
  revert f. induction l as [|g l IH]; intros f; [now exists []|].
  destruct (IH g) as [a Ha]. exists (f ++ sep ++ a).
  rewrite join_cons by discriminate. rewrite Ha.
  now rewrite <- !app_assoc.
Qed.

(** Splitting the join of quiet and well led paragraphs gives them back. *)
Lemma split_of_join (l : list text) :
  forall f cur prev,
    Forall (fun p => quiet p /\ lead p) (f :: l) ->
    split_pieces cur
      (finditer Workflow.PARAGRAPH_BREAK prev (join [LF; LF] (f :: l)))
    = (rev cur ++ f) :: l.
Proof.
  induction l as [|g l IH]; intros f cur prev Hall.
  - inversion Hall as [|? ? [Hq _] _]; subst. simpl join.
    rewrite <- (app_nil_r f) at 1. rewrite split_pieces_lits by exact Hq.
    rewrite finditer_equation_1. simpl.
    now rewrite rev_app_distr, rev_involutive.
  - inversion Hall as [|? ? [Hq _] Hrest]; subst.
    rewrite join_cons by discriminate.
    rewrite split_pieces_lits by exact Hq.
    inversion Hrest as [|? ? [_ [Hn He]] _]; subst.
    destruct (join_head [LF; LF] g l) as [ctx Hctx].
    change ([LF; LF] ++ join [LF; LF] (g :: l))
      with (LF :: LF :: join [LF; LF] (g :: l)).
    rewrite split_pieces_join_break.
    + rewrite (IH g [] (Some LF) Hrest). simpl.
      now rewrite rev_app_distr, rev_involutive.
    + rewrite Hctx. now rewrite takewhile_app_stop.
    + rewrite Hctx, existsb_app, He. reflexivity.
Qed.

Lemma rstrip_ends (s : text) : ends_nonspace s -> rstrip s = s.
Proof.
  intros (a & d & -> & Hd). unfold rstrip.
  rewrite rev_app_distr. simpl. rewrite Hd. simpl.
  now rewrite rev_involutive.
Qed.

Lemma strip_fixed (c : ascii) (s : text) :
  isspace c = false -> ends_nonspace (c :: s) -> strip (c :: s) = c :: s.
Proof.
  intros Hc He. unfold strip, lstrip. simpl. rewrite Hc. now apply rstrip_ends.
Qed.

Lemma strip_ends (t : text) (c : ascii) (u : text) :
  strip t = c :: u -> ends_nonspace (c :: u).
Proof.
  unfold strip, rstrip. intros H.
  destruct (dropwhile isspace (rev (lstrip t))) as [|d r] eqn:Hd;
    [discriminate|].
  pose proof (dropwhile_head _ _ _ _ Hd) as Hsp.
  rewrite <- H. simpl. now exists (rev r), d.
Qed.

Lemma ends_nonspace_app (a b : text) :
  ends_nonspace b -> ends_nonspace (a ++ b).
Proof.
  intros (x & d & -> & Hd). exists (a ++ x), d. now rewrite app_assoc.
Qed.

Lemma last_map (f : text -> text) (l : list text) (x : text) :
  last (map f (x :: l)) [] = f (last (x :: l) []).
Proof.
  revert x. induction l as [|y l IH]; intros x; [reflexivity|].
  change (last (map f (y :: l)) [] = f (last (y :: l) [])). apply IH.
Qed.

Lemma token_found (k : text) :
  is_key k = true -> re_search Workflow.CITATION (bracketed k) = true.
Proof.
  intros Hk. destruct (is_key_shape _ Hk) as (ds & Hne & Hds & ->).
  apply search_citation_iff. exists ds. repeat split; auto.
  exists [], []. now rewrite app_nil_r.
Qed.

(** The bracketed key alone is one paragraph. *)
Lemma paragraphs_of_key_tail (k : text) :
  is_key k = true ->
  paragraphs (" "%char :: bracketed k) = [bracketed k].
Proof.
  intros Hk. destruct (key_tail_plain k Hk) as (Hno & _ & _ & Hend).
  unfold paragraphs.
  assert (Hstrip : strip (" "%char :: bracketed k) = bracketed k).
  { unfold strip, lstrip. simpl. apply rstrip_ends.
    destruct Hend as (a & d & H & Hd). destruct a as [|a0 a]; [discriminate|].
    inversion H. now exists a, d. }
  rewrite Hstrip. unfold re_split.
  change (bracketed k) with (join [LF; LF] [bracketed k]) at 1.
  rewrite split_of_join; [reflexivity|].
  constructor; [|constructor]. split.
  - intros a b Hab. exfalso. apply Hno. right. rewrite Hab.
    apply in_or_app. right. now left.
  - split; [simpl; tauto | reflexivity].
Qed.

(** The paragraphs after the enforcement, and the text as a whole. *)
Lemma ensured_cited (t k : text) (ks : list text) :
  is_key k = true -> t <> [] ->
  Forall (fun p => re_search Workflow.CITATION p = true)
    (paragraphs (Workflow._ensure_citation_per_paragraph t (k :: ks)))
  /\ re_search Workflow.CITATION
       (Workflow._ensure_citation_per_paragraph t (k :: ks)) = true.
Proof.
  intros Hk Ht. destruct t as [|c t]; [easy|].
  unfold Workflow._ensure_citation_per_paragraph. simpl truthy. cbv iota zeta.
  set (fixp := fun p => if re_search Workflow.CITATION p then p
                        else rstrip p ++ " "%char :: bracketed k).
  destruct (strip (c :: t)) as [|c0 u0] eqn:Hstrip.
  - unfold re_split. rewrite finditer_equation_1. simpl map.
    assert (Hf : fixp [] = " "%char :: bracketed k).
    { unfold fixp, re_search, re_matches. now rewrite finditer_equation_1. }
    rewrite Hf. simpl join. rewrite paragraphs_of_key_tail by exact Hk.
    split; [|exact (key_token_found k [] Hk)].
    constructor; [now apply token_found | constructor].
  - pose proof (strip_head _ _ _ Hstrip) as Hc0.
    pose proof (strip_ends _ _ _ Hstrip) as Hend.
    assert (Hne : c0 <> LF) by (intros ->; now rewrite isspace_LF in Hc0).
    unfold re_split.
    rewrite (finditer_miss _ _ _ _ (break_other None c0 u0 Hne)).
    simpl split_pieces.
    destruct (split_quiet (S (List.length u0)) u0 (Some c0) [c0])
      as (u & rest & Hsplit & Hall & Hlast); auto.
    { intros a b Hab. destruct a as [|a0 a]; [|now destruct a].
      inversion Hab. congruence. }
    { simpl. now rewrite Hc0. }
    simpl rev in Hsplit. simpl app in Hsplit, Hall, Hlast. rewrite Hsplit.
    assert (Hgood : Forall (fun p => quiet p /\ lead p)
                      (map fixp ((c0 :: u) :: rest))).
    { apply Forall_map. apply Forall_forall. intros p Hp.
      rewrite Forall_forall in Hall. destruct (Hall p Hp) as [Hq Hl].
      unfold fixp. destruct (re_search Workflow.CITATION p); [now split|].
      now apply repaired_paragraph. }
    assert (Hcited : Forall (fun p => re_search Workflow.CITATION p = true)
                       (map fixp ((c0 :: u) :: rest))).
    { apply Forall_map. apply Forall_forall. intros p _. unfold fixp.
      destruct (re_search Workflow.CITATION p) eqn:Hs; [exact Hs|].
      now apply key_token_found. }
    assert (Hhead : exists u', fixp (c0 :: u) = c0 :: u').
    { unfold fixp. destruct (re_search Workflow.CITATION (c0 :: u));
        [now exists u|].
      rewrite rstrip_cons by exact Hc0. now eexists. }
    assert (Hlast' : ends_nonspace (last (map fixp ((c0 :: u) :: rest)) [])).
    { rewrite last_map. unfold fixp.
      match goal with
      | |- context [re_search ?r ?x] => destruct (re_search r x)
      end; [exact Hlast|].
      apply ends_nonspace_app. now apply key_tail_plain. }
    simpl map in *. destruct Hhead as [u' Hu'].
    destruct (join_head [LF; LF] (fixp (c0 :: u)) (map fixp rest)) as [ctx Hctx].
    destruct (join_last [LF; LF] (map fixp rest) (fixp (c0 :: u))) as [a Ha].
    assert (Hout : strip (join [LF; LF] (fixp (c0 :: u) :: map fixp rest))
                   = join [LF; LF] (fixp (c0 :: u) :: map fixp rest)).
    { rewrite Hctx at 1 2. rewrite Hu'. simpl app. apply strip_fixed; auto.
      rewrite app_comm_cons, <- Hu', <- Hctx, Ha.
      now apply ends_nonspace_app. }
    split.
    + unfold paragraphs, re_split. rewrite Hout.
      rewrite split_of_join by exact Hgood. exact Hcited.
    + inversion Hcited as [|? ? Hfirst _]; subst.
      apply search_citation_iff in Hfirst.
      destruct Hfirst as (ds & Hd1 & Hd2 & Hocc).
      apply search_citation_iff. exists ds. repeat split; auto.
      rewrite Hctx. now apply occurs_app_l.
Qed.

(** X18.  With a well-formed first key, every paragraph of the text that
    [_ensure_citation_per_paragraph] gives for a non-empty text holds a
    citation token, and so does the text. *)
Theorem ensured_paragraphs_are_cited (t k : text) (ks : list text) :
  is_key k = true -> t <> [] ->
  Forall (fun p => re_search Workflow.CITATION p = true)
    (paragraphs (Workflow._ensure_citation_per_paragraph t (k :: ks)))
  /\ re_search Workflow.CITATION
       (Workflow._ensure_citation_per_paragraph t (k :: ks)) = true.
Proof. apply ensured_cited. Qed.

Lemma ensured_paragraphs_are_cited_witness :
  Forall (fun p => re_search Workflow.CITATION p = true)
    (paragraphs
       (Workflow._ensure_citation_per_paragraph (str "Neurons fire.

Sleep helps [S1].
 
   Memory grows.  ") [str "S2"])).
Proof.
  refine (proj1 (ensured_paragraphs_are_cited _ (str "S2") [] _ _)).
  - reflexivity.
  - discriminate.
Defined.

(** X19.  With a well-formed first key, every paragraph of the text
    returned by the part Sanitize and Return holds a citation token,
    whatever the editor and the adapter have written. *)
Theorem returned_paragraphs_are_cited (final adapted k : text)
  (ks : list text) :
  is_key k = true ->
  Forall (fun p => re_search Workflow.CITATION p = true)
    (paragraphs (Workflow.sanitize_and_return final adapted (k :: ks))).
Proof.
  intros Hk. rewrite sanitize_and_return_selected. cbv zeta.
  destruct (Workflow.replace_placeholder k
              (Workflow._sanitize_citations final (k :: ks))) as [|c t].
  - change (Workflow._ensure_citation_per_paragraph [] (k :: ks))
      with (@nil ascii).
    assert (Hs : re_search Workflow.CITATION [] = false)
      by (unfold re_search, re_matches; now rewrite finditer_equation_1).
    rewrite Hs.
    change (rstrip [] ++ " "%char :: bracketed k)
      with (" "%char :: bracketed k).
    rewrite paragraphs_of_key_tail by exact Hk.
    constructor; [now apply token_found | constructor].
  - destruct (ensured_cited (c :: t) k ks Hk) as [Hall Hs]; [discriminate|].
    now rewrite Hs.
Qed.

Lemma returned_paragraphs_are_cited_witness :
  Forall (fun p => re_search Workflow.CITATION p = true)
    (paragraphs
       (Workflow.sanitize_and_return (str "Neurons fire [S9].

Sleep helps [S#].") [] [str "S2"])).
Proof. apply returned_paragraphs_are_cited. reflexivity. Defined.

(** * The filter and the placeholder on every text *)

(** ** The filter on a text with tokens of every kind *)

Lemma firstn_exact (a b : text) : firstn (List.length a) (a ++ b) = a.
Proof. induction a as [|c a IH]; simpl; [reflexivity | now rewrite IH]. Qed.

Lemma skipn_exact (a b : text) : skipn (List.length a) (a ++ b) = b.
Proof. induction a as [|c a IH]; simpl; [reflexivity | exact IH]. Qed.

Lemma token_free_nil : token_free [].
Proof.
  intros x (ds & _ & _ & ->) (pre & post & H).
  destruct pre; discriminate H.
Qed.

(** A character on which the pattern fails can be put before a text
    without token. *)
Lemma token_free_cons (prev : option ascii) (c : ascii) (g tail : text) :
  rmatch Workflow.CITATION prev (c :: g ++ tail) = None ->
  token_free g -> token_free (c :: g).
Proof.
  intros Hm Hg x Hx (pre & post & H). destruct pre as [|c' pre].
  - destruct Hx as (ds & Hne & Hds & ->).
    assert (E : c :: g ++ tail = bracketed ("S"%char :: ds) ++ post ++ tail)
      by (rewrite app_comm_cons, H, app_nil_l; now rewrite <- app_assoc).
    rewrite E, citation_matches in Hm by assumption. discriminate Hm.
  - inversion H; subst. apply (Hg x Hx). now exists pre, post.
Qed.

Lemma filtered_cons (allowed : list text) (prev : option ascii) (c : ascii)
  (s out : text) :
  rmatch Workflow.CITATION prev (c :: s) = None ->
  filtered allowed s out -> filtered allowed (c :: s) (c :: out).
Proof.
  intros Hm Hf. destruct Hf as [g Hg | g ds rest rest' Hg Hne Hds Hf].
  - apply filtered_rest.
    apply (token_free_cons prev c g []); [now rewrite app_nil_r | exact Hg].
  - rewrite !app_comm_cons. apply filtered_token; auto.
    exact (token_free_cons prev c g _ Hm Hg).
Qed.

(** The scan of the filter, whatever stands before the text. *)
Lemma scan_filtered (allowed : list text) (r : regex) (prev : option ascii)
  (s : text) :
  r = Workflow.CITATION ->
  filtered allowed s
    (List.concat (map (piece_text (Workflow.repl allowed)) (finditer r prev s))).
Proof.
  apply (finditer_elim
           (fun r prev s res =>
              r = Workflow.CITATION ->
              filtered allowed s
                (List.concat (map (piece_text (Workflow.repl allowed)) res)))).
  - intros _ _ _. apply filtered_rest, token_free_nil.
  - intros r0 p c s' IH Hm ->. simpl.
    exact (filtered_cons allowed p c s' _ Hm (IH eq_refl)).
  - intros r0 p c s' lens IH Hn Hm ->. exfalso.
    destruct (citation_shape _ _ _ Hm) as (ds & rest & _ & _ & _ & ->).
    simpl in Hn. lia.
  - intros r0 p c s' lens n IH Hn Hm ->.
    destruct (citation_shape _ _ _ Hm) as (ds & rest & Hne & Hds & Hs & ->).
    injection Hs as -> ->.
    assert (En : n = List.length ("S"%char :: ds ++ ["]"%char])).
    { simpl in Hn |- *. rewrite List.length_app. simpl. lia. }
    assert (Ef : firstn n ("S"%char :: ds ++ "]"%char :: rest)
                 = "S"%char :: ds ++ ["]"%char]).
    { rewrite En.
      change ("S"%char :: ds ++ "]"%char :: rest)
        with (("S"%char :: ds) ++ "]"%char :: rest).
      change ("]"%char :: rest) with (["]"%char] ++ rest).
      rewrite app_assoc. apply firstn_exact. }
    assert (Es : skipn n ("S"%char :: ds ++ "]"%char :: rest) = rest).
    { rewrite En.
      change ("S"%char :: ds ++ "]"%char :: rest)
        with (("S"%char :: ds) ++ "]"%char :: rest).
      change ("]"%char :: rest) with (["]"%char] ++ rest).
      rewrite app_assoc. apply skipn_exact. }
    specialize (IH eq_refl). rewrite Ef, Es in IH.
    cbn [map List.concat piece_text]. rewrite Ef, Es.
    unfold Workflow.repl at 1. cbn [whole].
    destruct (span_digits
                (mkMatch ("["%char :: "S"%char :: ds ++ ["]"%char])
                   [1; 1; List.length ds; 1]) ds eq_refl eq_refl) as [-> _].
    pose proof (filtered_token allowed [] ds rest _ token_free_nil Hne Hds IH)
      as Hf.
    rewrite !app_nil_l in Hf. unfold bracketed in Hf.
    simpl app in Hf. rewrite <- app_assoc in Hf. simpl app in Hf.
    exact Hf.
Qed.

Lemma sanitize_filtered (t : text) (allowed : list text) :
  filtered allowed t (Workflow._sanitize_citations t allowed).
Proof.
  unfold Workflow._sanitize_citations. destruct t as [|c t].
  - apply filtered_rest, token_free_nil.
  - apply scan_filtered. reflexivity.
Qed.

Lemma app_stop_inj (c : ascii) (a b r1 r2 : text) :
  ~ In c a -> ~ In c b -> a ++ c :: r1 = b ++ c :: r2 -> a = b /\ r1 = r2.
Proof.
  revert b. induction a as [|x a IH]; intros [|y b] Ha Hb H; simpl in H.
  - inversion H. auto.
  - inversion H; subst. exfalso. apply Hb. now left.
  - inversion H; subst. exfalso. apply Ha. now left.
  - inversion H; subst.
    destruct (IH b) as [-> ->]; auto.
    + intros Hin. apply Ha. now right.
    + intros Hin. apply Hb. now right.
Qed.

Lemma bracketed_inj (k k' r r' : text) :
  ~ In "]"%char k -> ~ In "]"%char k' ->
  bracketed k ++ r = bracketed k' ++ r' -> k = k' /\ r = r'.
Proof.
  unfold bracketed. simpl. rewrite <- !app_assoc. simpl.
  intros Hk Hk' H. inversion H. now apply (app_stop_inj "]"%char).
Qed.

(** A text that runs up to a character [c] and holds no [d] before it is
    over before the first [d] of a text it opens. *)
Lemma app_before (c d : ascii) (x r l z : text) :
  c <> d -> ~ In d x -> x ++ c :: r = l ++ d :: z ->
  exists l2, l = x ++ c :: l2.
Proof.
  intros Hcd Hx H. apply app_eq_app in H.
  destruct H as (l3 & [[Hx3 Hz] | [Hl Hz]]).
  - destruct l3 as [|e l3].
    + inversion Hz. congruence.
    + inversion Hz; subst. exfalso. apply Hx. apply in_or_app. right. now left.
  - destruct l3 as [|e l3].
    + inversion Hz. congruence.
    + inversion Hz; subst. now exists l3.
Qed.

(** Two bracketed keys without bracket in one text: one stands before the
    other, or they are the same token at the same place. *)
Lemma two_tokens (g pre k k' rest post : text) :
  bracket_free k -> bracket_free k' ->
  g ++ bracketed k' ++ rest = pre ++ bracketed k ++ post ->
  (exists l2, g = pre ++ bracketed k ++ l2)
  \/ (g = pre /\ k' = k /\ rest = post)
  \/ (exists l2, pre = g ++ bracketed k' ++ l2).
Proof.
  intros [Hko Hkc] [Hko' Hkc'] H. apply app_eq_app in H.
  assert (Hbr : "]"%char <> "["%char) by discriminate.
  destruct H as (l & [[Hg Hx] | [Hp Hx]]).
  - destruct l as [|c l].
    + right. left. rewrite app_nil_r in Hg. simpl in Hx.
      destruct (bracketed_inj _ _ _ _ Hkc Hkc' Hx) as [-> ->]. auto.
    + left. unfold bracketed in Hx. simpl in Hx. inversion Hx; subst c.
      rewrite <- !app_assoc in H1. simpl in H1.
      destruct (app_before _ _ _ _ _ _ Hbr Hko H1) as [l2 ->].
      exists l2. rewrite Hg. unfold bracketed. simpl.
      now rewrite <- app_assoc.
  - destruct l as [|c l].
    + right. left. rewrite app_nil_r in Hp. simpl in Hx.
      destruct (bracketed_inj _ _ _ _ Hkc' Hkc Hx) as [-> ->]. auto.
    + right. right. unfold bracketed in Hx. simpl in Hx.
      inversion Hx; subst c.
      rewrite <- !app_assoc in H1. simpl in H1.
      destruct (app_before _ _ _ _ _ _ Hbr Hko' H1) as [l2 ->].
      exists l2. rewrite Hp. unfold bracketed. simpl.
      now rewrite <- app_assoc.
Qed.

Lemma digits_bracket_free (ds : text) :
  forallb isdecimal ds = true -> bracket_free ("S"%char :: ds).
Proof.
  intros Hds. rewrite forallb_forall in Hds.
  split; intros [H | H]; try discriminate H;
    apply Hds in H; discriminate H.
Qed.

Lemma token_occurs (g ds rest : text) :
  ds <> [] -> forallb isdecimal ds = true ->
  ~ token_free (g ++ bracketed ("S"%char :: ds) ++ rest).
Proof.
  intros Hne Hds H. apply (H (bracketed ("S"%char :: ds))).
  - now exists ds.
  - now exists g, rest.
Qed.

(** The relation [filtered] names one text. *)
Lemma filtered_unique (allowed : list text) (t u : text) :
  filtered allowed t u -> forall u', filtered allowed t u' -> u = u'.
Proof.
  induction 1 as [g Hg | g ds rest rest' Hg Hne Hds Hf IH]; intros u' H'.
  - inversion H' as [g' Hg' | g' ds' r r' Hg' Hne' Hds' Hf' E]; subst.
    + reflexivity.
    + exfalso. exact (token_occurs _ _ _ Hne' Hds' Hg).
  - inversion H' as [g' Hg' E | g' ds' r r' Hg' Hne' Hds' Hf' E]; subst.
    + exfalso. exact (token_occurs _ _ _ Hne Hds Hg').
    + destruct (two_tokens g' g ("S"%char :: ds) ("S"%char :: ds') r rest
                  (digits_bracket_free ds Hds) (digits_bracket_free ds' Hds') E)
        as [[l2 Hl] | [(Eg & Ek & Er) | [l2 Hl]]].
      * exfalso. apply (Hg' (bracketed ("S"%char :: ds))); [now exists ds|].
        now exists g, l2.
      * inversion Ek; subst. now rewrite (IH _ Hf').
      * exfalso. apply (Hg (bracketed ("S"%char :: ds'))); [now exists ds'|].
        now exists g', l2.
Qed.

Lemma occurs_beside (k k' g rest : text) :
  bracket_free k -> bracket_free k' -> k <> k' ->
  occurs (bracketed k) (g ++ bracketed k' ++ rest) ->
  occurs (bracketed k) g \/ occurs (bracketed k) rest.
Proof.
  intros Hk Hk' Hne (pre & post & H).
  destruct (two_tokens g pre k k' rest post Hk Hk' H)
    as [[l2 Hl] | [(Eg & Ek & Er) | [l2 Hl]]].
  - left. now exists pre, l2.
  - congruence.
  - right. subst pre. rewrite <- !app_assoc in H.
    apply app_inv_head in H. apply app_inv_head in H. now exists l2, post.
Qed.

(** A bracketed token whose key is not a key stays where the filter
    found it. *)
Lemma filtered_keeps (allowed : list text) (t u : text) :
  filtered allowed t u ->
  forall k, is_key k = false -> bracket_free k ->
            occurs (bracketed k) t -> occurs (bracketed k) u.
Proof.
  induction 1 as [g Hg | g ds rest rest' Hg Hne Hds Hf IH];
    intros k Hk Hb Ho; [exact Ho|].
  assert (Hkk : k <> "S"%char :: ds).
  { intros ->. now rewrite (is_key_digits ds Hne Hds) in Hk. }
  destruct (occurs_beside k _ g rest Hb (digits_bracket_free ds Hds) Hkk Ho)
    as [H | H].
  - now apply occurs_app_l.
  - apply occurs_app_r, occurs_app_r. now apply IH.
Qed.

(** C5.  The filter removes the citation tokens whose key is not allowed
    and nothing else.  The text it returns is the text without these tokens,
    taken from left to right, and no other text is; a bracketed token whose
    key is malformed and holds no bracket is not a citation token and still
    stands in the result; the citation pattern is found in a text exactly
    when a token made of the letter S and digits stands in it, and a text
    where it is not found is returned as it is. *)
Theorem C5_malformed_tokens_are_kept (t : text) (allowed : list text) :
  (forall u, filtered allowed t u <-> u = Workflow._sanitize_citations t allowed)
  /\ (forall k, is_key k = false -> bracket_free k ->
                occurs (bracketed k) t ->
                occurs (bracketed k) (Workflow._sanitize_citations t allowed))
  /\ (re_search Workflow.CITATION t = true <->
      exists ds, ds <> [] /\ forallb isdecimal ds = true
                 /\ occurs (bracketed ("S"%char :: ds)) t)
  /\ (re_search Workflow.CITATION t = false ->
      Workflow._sanitize_citations t allowed = t).
Proof.
  split; [|split; [|split]].
  - intros u. split.
    + intros H. exact (filtered_unique _ _ _ H _ (sanitize_filtered t allowed)).
    + intros ->. apply sanitize_filtered.
  - exact (filtered_keeps _ _ _ (sanitize_filtered t allowed)).
  - apply search_citation_iff.
  - intros H. unfold Workflow._sanitize_citations.
    destruct (truthy t); [|reflexivity].
    apply sub_without_hit. unfold re_search, re_matches in H.
    now destruct (hits (finditer Workflow.CITATION None t)).
Qed.

Lemma C5_witness :
  occurs (bracketed (str "S#"))
    (Workflow._sanitize_citations
       (str "Sleep [S9] aids [S#] memory [S1] [Sx] [S].") [str "S1"])
  /\ Workflow._sanitize_citations (str "Sleep aids memory [S#] [Sx] [S].")
       [str "S1"]
     = str "Sleep aids memory [S#] [Sx] [S].".
Proof.
  split.
  - apply (proj1 (proj2 (C5_malformed_tokens_are_kept
                           (str "Sleep [S9] aids [S#] memory [S1] [Sx] [S].")
                           [str "S1"]))).
    + reflexivity.
    + split; simpl; intros [H | [H | []]]; discriminate H.
    + exists (str "Sleep [S9] aids "), (str " memory [S1] [Sx] [S].").
      reflexivity.
  - apply (proj2 (proj2 (proj2 (C5_malformed_tokens_are_kept
                    (str "Sleep aids memory [S#] [Sx] [S].") [str "S1"])))).
    vm_compute. reflexivity.
Defined.

(** The token [Sx] between brackets has a malformed key and is still in the
    filtered text. *)
Lemma C5_malformed_token_survives :
  is_key (str "Sx") = false
  /\ occurs (bracketed (str "Sx"))
       (Workflow._sanitize_citations (str "Sleep aids memory [Sx].")
          [str "S1"]).
Proof.
  split; [reflexivity|].
  exists (str "Sleep aids memory "), (str "."). vm_compute. reflexivity.
Qed.

(** ** The placeholder in the text that is returned *)

(** The characters of the text after the substitution are characters of the
    text or of the bracketed key. *)
Lemma replace_placeholder_chars (k : text) (c : ascii) (r : regex)
  (prev : option ascii) (s : text) :
  In c (List.concat (map (piece_text (fun _ => bracketed k)) (finditer r prev s)))
  -> In c s \/ In c (bracketed k).
Proof.
  apply (finditer_elim
           (fun r prev s res =>
              In c (List.concat (map (piece_text (fun _ => bracketed k)) res))
              -> In c s \/ In c (bracketed k))).
  - intros _ _ [].
  - intros r0 p c0 s' IH _ [H | H]; [left; now left|].
    destruct (IH H) as [H' | H']; [left; now right | now right].
  - intros r0 p c0 s' lens IH _ _ [H | H]; [left; now left|].
    destruct (IH H) as [H' | H']; [left; now right | now right].
  - intros r0 p c0 s' lens n IH _ _ H.
    cbn [map List.concat piece_text] in H. apply in_app_or in H.
    destruct H as [H | H]; [now right|].
    destruct (IH H) as [H' | H']; [|now right].
    left. right. rewrite <- (firstn_skipn n s'). apply in_or_app. now right.
Qed.

(** A text where the pattern of the placeholder is found holds the
    placeholder. *)
Lemma placeholder_found (t : text) :
  re_search Workflow.PLACEHOLDER t = true ->
  exists a b, t = a ++ placeholder ++ b.
Proof.
  unfold re_search, re_matches.
  destruct (hits (finditer Workflow.PLACEHOLDER None t)) as [|m ms] eqn:Hh;
    [discriminate|]. intros _.
  assert (Hin : In m (hits (finditer Workflow.PLACEHOLDER None t)))
    by (rewrite Hh; now left).
  destruct (hit_occurs _ _ _ _ Hin) as (pre & rest & q & -> & Hm & _).
  apply placeholder_shape in Hm. destruct Hm as [_ [rest' ->]].
  now exists pre, rest'.
Qed.

Lemma placeholder_searched (a b : text) :
  re_search Workflow.PLACEHOLDER (a ++ placeholder ++ b) = true.
Proof.
  unfold re_search, re_matches.
  rewrite (finditer_placeholder_app b (S (List.length a))) by lia.
  induction (finditer Workflow.PLACEHOLDER None a) as [|[c|m] ps IH];
    simpl; auto.
Qed.

(** Without line feed there is one paragraph. *)
Lemma split_one_paragraph (s : text) :
  forall prev cur,
    ~ In LF s ->
    split_pieces cur (finditer Workflow.PARAGRAPH_BREAK prev s) = [rev cur ++ s].
Proof.
  induction s as [|c s IH]; intros prev cur Hs.
  - rewrite finditer_equation_1. simpl. now rewrite app_nil_r.
  - assert (Hc : c <> LF) by (intros ->; apply Hs; now left).
    rewrite (finditer_miss _ _ _ _ (break_other prev c s Hc)). simpl.
    rewrite IH by (intros H; apply Hs; now right).
    simpl. now rewrite <- app_assoc.
Qed.

Lemma strip_In (c : ascii) (s : text) : In c (strip s) -> In c s.
Proof.
  intros H. apply in_split in H. destruct H as (l1 & l2 & H).
  assert (Ho : occurs [c] (strip s)) by now exists l1, l2.
  apply occurs_strip in Ho. destruct Ho as (pre & post & ->).
  apply in_or_app. right. now left.
Qed.

Lemma rstrip_app_stop (l : text) (d : ascii) (post : text) :
  isspace d = false -> rstrip (l ++ d :: post) = l ++ d :: rstrip post.
Proof.
  intros Hd. unfold rstrip. rewrite rev_app_distr. simpl.
  rewrite <- app_assoc. simpl.
  rewrite dropwhile_app_stop by exact Hd.
  rewrite rev_app_distr. simpl. rewrite rev_involutive.
  now rewrite <- app_assoc.
Qed.

(** A text between two characters that are not whitespace is still in the
    stripped text. *)
Lemma occurs_in_strip (c d : ascii) (x s : text) :
  isspace c = false -> isspace d = false ->
  occurs (c :: x ++ [d]) s -> occurs (c :: x ++ [d]) (strip s).
Proof.
  intros Hc Hd (pre & post & ->). unfold strip, lstrip.
  rewrite <- app_comm_cons, dropwhile_app_stop by exact Hc.
  replace (dropwhile isspace pre ++ c :: (x ++ [d]) ++ post)
    with ((dropwhile isspace pre ++ c :: x) ++ d :: post)
    by (rewrite <- !app_assoc; reflexivity).
  rewrite rstrip_app_stop by exact Hd.
  exists (dropwhile isspace pre), (rstrip post).
  rewrite <- !app_assoc. simpl. now rewrite <- app_assoc.
Qed.

Lemma token_in_strip (k s : text) :
  occurs (bracketed k) s -> occurs (bracketed k) (strip s).
Proof. apply (occurs_in_strip "["%char "]"%char k s); reflexivity. Qed.

(** The text returned for a single paragraph without citation in which a
    placeholder stands. *)
Lemma placeholder_repaired (k t adapted : text) (ks : list text) :
  is_key k = true -> ~ In LF t ->
  re_search Workflow.CITATION t = false ->
  re_search Workflow.PLACEHOLDER t = true ->
  Workflow.sanitize_and_return t adapted (k :: ks)
  = strip (Workflow.replace_placeholder k t).
Proof.
  intros Hk Hlf Hc Hp. rewrite sanitize_and_return_selected.
  assert (Hs : Workflow._sanitize_citations t (k :: ks) = t).
  { unfold Workflow._sanitize_citations. destruct (truthy t); [|reflexivity].
    apply sub_without_hit. unfold re_search, re_matches in Hc.
    now destruct (hits (finditer Workflow.CITATION None t)). }
  rewrite Hs. set (e0 := Workflow.replace_placeholder k t).
  assert (Ho : occurs (bracketed k) e0).
  { destruct (placeholder_found t Hp) as (a & b & ->).
    unfold e0. rewrite replace_placeholder_app.
    now exists (Workflow.replace_placeholder k a),
      (Workflow.replace_placeholder k b). }
  destruct (is_key_shape _ Hk) as (ds & Hne & Hds & Ek).
  assert (Hfound : forall s, occurs (bracketed k) s ->
                             re_search Workflow.CITATION s = true).
  { intros s H. apply search_citation_iff. exists ds. now rewrite <- Ek. }
  assert (Hlf0 : ~ In LF e0).
  { intros H. apply replace_placeholder_chars in H. destruct H as [H | H].
    - now apply Hlf.
    - destruct (key_tail_plain k Hk) as (Hno & _). apply Hno. now right. }
  assert (He : Workflow._ensure_citation_per_paragraph e0 (k :: ks) = strip e0).
  { unfold Workflow._ensure_citation_per_paragraph.
    rewrite (search_true_truthy _ _ (Hfound _ Ho)). cbv zeta.
    unfold re_split. rewrite split_one_paragraph
      by (intros H; apply Hlf0; now apply strip_In in H).
    simpl. now rewrite (Hfound _ (token_in_strip _ _ Ho)). }
  cbv zeta. rewrite He.
  now rewrite (Hfound _ (token_in_strip _ _ Ho)).
Qed.

Lemma replace_placeholder_plain (k a : text) :
  ~ In "["%char a -> Workflow.replace_placeholder k a = a.
Proof.
  intros Ha. unfold Workflow.replace_placeholder, re_sub.
  apply sub_without_hit.
  destruct (hits (finditer Workflow.PLACEHOLDER None a)) as [|m ms] eqn:Hh;
    [reflexivity|]. exfalso.
  assert (Hs : re_search Workflow.PLACEHOLDER a = true)
    by (unfold re_search, re_matches; now rewrite Hh).
  destruct (placeholder_found a Hs) as (x & y & ->).
  apply Ha. apply in_or_app. right. now left.
Qed.

(** The placeholder is no citation token, and none stands around it in a
    text without another bracket. *)
Lemma placeholder_alone (a b : text) :
  ~ In "["%char a -> ~ In "["%char b ->
  re_search Workflow.CITATION (a ++ placeholder ++ b) = false.
Proof.
  intros Ha Hb.
  destruct (re_search Workflow.CITATION (a ++ placeholder ++ b)) eqn:Hs;
    [exfalso | reflexivity].
  apply search_citation_iff in Hs.
  destruct Hs as (ds & Hne & Hds & pre & post & H).
  assert (Hph : bracket_free (str "S#"))
    by (split; simpl; intros [E | [E | []]]; discriminate E).
  change placeholder with (bracketed (str "S#")) in H.
  destruct (two_tokens a pre ("S"%char :: ds) (str "S#") b post
              (digits_bracket_free ds Hds) Hph H)
    as [[l2 Hl] | [(Eg & Ek & Er) | [l2 Hl]]].
  - apply Ha. rewrite Hl. apply in_or_app. right. now left.
  - inversion Ek; subst ds. discriminate Hds.
  - subst pre. rewrite <- !app_assoc in H.
    apply app_inv_head in H. apply app_inv_head in H.
    apply Hb. rewrite H. apply in_or_app. right. now left.
Qed.

(** C7.  The enforcement stage puts the first selected key, between
    brackets, in the place of every placeholder, for a key free of
    backslashes.  The substitution turns each placeholder of a text into the
    bracketed key and changes nothing in a text without placeholder; for
    every list of selected keys it is made with the first key, on the
    filtered text and before the paragraphs are enforced; for a well-formed
    key, a single paragraph without citation token in which a placeholder
    stands is returned stripped, with the first key in the place of its
    placeholders, whatever the other keys and the adapted text are; the
    edited text [Sleep aids memory [S#].] with the first key S4 is returned
    as [Sleep aids memory [S4].]. *)
Theorem C7_placeholder_becomes_first_key (first : text) :
  ~ In "\"%char first ->
  (forall a b,
      Workflow.replace_placeholder first (a ++ placeholder ++ b)
      = Workflow.replace_placeholder first a ++ bracketed first
          ++ Workflow.replace_placeholder first b)
  /\ (forall t, re_search Workflow.PLACEHOLDER t = false ->
        Workflow.replace_placeholder first t = t)
  /\ (forall final adapted ks,
        Workflow.sanitize_and_return final adapted (first :: ks)
        = let e := Workflow._ensure_citation_per_paragraph
                     (Workflow.replace_placeholder first
                        (Workflow._sanitize_citations final (first :: ks)))
                     (first :: ks) in
          if re_search Workflow.CITATION e then e
          else rstrip e ++ " "%char :: bracketed first)
  /\ (is_key first = true ->
      (forall t adapted ks,
          ~ In LF t -> re_search Workflow.CITATION t = false ->
          re_search Workflow.PLACEHOLDER t = true ->
          Workflow.sanitize_and_return t adapted (first :: ks)
          = strip (Workflow.replace_placeholder first t))
      /\ (forall a b adapted ks,
            ~ In "["%char a -> ~ In LF a -> ~ In "["%char b -> ~ In LF b ->
            Workflow.sanitize_and_return (a ++ placeholder ++ b) adapted
              (first :: ks)
            = strip (a ++ bracketed first ++ b)))
  /\ (forall adapted ks,
        Workflow.sanitize_and_return (str "Sleep aids memory [S#].") adapted
          (str "S4" :: ks)
        = str "Sleep aids memory [S4].").
Proof.
  intros _.
  assert (Hone : forall k a b adapted ks,
             is_key k = true ->
             ~ In "["%char a -> ~ In LF a -> ~ In "["%char b -> ~ In LF b ->
             Workflow.sanitize_and_return (a ++ placeholder ++ b) adapted
               (k :: ks)
             = strip (a ++ bracketed k ++ b)).
  { intros k a b adapted ks Hk Ha Hla Hb Hlb.
    rewrite placeholder_repaired.
    - now rewrite replace_placeholder_app, !replace_placeholder_plain.
    - exact Hk.
    - intros H. apply in_app_or in H. destruct H as [H | H]; [now apply Hla|].
      apply in_app_or in H. destruct H as [H | H]; [|now apply Hlb].
      simpl in H. destruct H as [H | [H | [H | [H | []]]]]; discriminate H.
    - now apply placeholder_alone.
    - apply placeholder_searched. }
  split; [|split; [|split; [|split]]].
  - intros a b. apply replace_placeholder_app.
  - intros t Ht. unfold Workflow.replace_placeholder, re_sub.
    apply sub_without_hit. unfold re_search, re_matches in Ht.
    now destruct (hits (finditer Workflow.PLACEHOLDER None t)).
  - intros final adapted ks. apply sanitize_and_return_selected.
  - intros Hk. split.
    + intros t adapted ks Hlf Hc Hp. now apply placeholder_repaired.
    + intros a b adapted ks. now apply Hone.
  - intros adapted ks.
    apply (Hone (str "S4") (str "Sleep aids memory ") (str ".") adapted ks);
      try reflexivity; simpl; intuition discriminate.
Qed.

Lemma C7_witness :
  Workflow.replace_placeholder (str "S4") (str "Sleep aids memory [S#].")
  = str "Sleep aids memory [S4]."
  /\ Workflow.sanitize_and_return (str "Memory [S#] needs sleep [S#]. ") []
       [str "S2"; str "S4"]
     = str "Memory [S2] needs sleep [S2].".
Proof.
  assert (H4 : ~ In "\"%char (str "S4"))
    by (simpl; intros [H | [H | []]]; discriminate H).
  assert (H2 : ~ In "\"%char (str "S2"))
    by (simpl; intros [H | [H | []]]; discriminate H).
  split.
  - exact (proj1 (C7_placeholder_becomes_first_key _ H4)
             (str "Sleep aids memory ") (str ".")).
  - apply (proj1 (proj1 (proj2 (proj2 (proj2
             (C7_placeholder_becomes_first_key _ H2)))) eq_refl)).
    + simpl. intuition discriminate.
    + reflexivity.
    + reflexivity.
Defined.
